(** * Data cleanup practice script: a shallow embedding

    Source: [ai-ml/1.Data Cleanup/Datacleanup-practice-advance.py].

    The script builds a pandas [DataFrame] from a literal dict, appends three
    duplicate rows, copies it to [df_clean] and then runs, top to bottom,
    type normalisation, duplicate removal, imputation, column pruning,
    IQR capping and four encoders.

    Modelling choices.
    - A frame is an ordered list of named columns, as the dict it is built
      from.  A column is numeric ([NumCol], int64 and float64 alike) or of
      dtype object ([ObjCol], strings).  [None] stands for NaN.
    - float64 arithmetic is carried out on exact rationals ([Q]); numeric
      equality is [Qeq_bool] (value equality, as [==] on floats).  An
      infinity has no rational: a float64 column that holds one is kept
      apart as [XCol]; it is stored, compared, selected and counted like
      any column, and the arithmetic on it is left out.
    - A raised exception is [None] in the [option] monad.
    - Script variables live in an environment; frames live in a heap of
      objects and variables hold references to them, so that in-place
      column assignment and rebinding are told apart. *)

From Stdlib Require Import List String Ascii ZArith QArith Qround Qpower Bool
  Lia Lqa Arith PeanoNat Sorted Permutation.
Import ListNotations.

Local Open Scope string_scope.
Local Open Scope list_scope.

(** ** The option monad for raising code *)

Definition bind {A B : Type} (m : option A) (k : A -> option B) : option B :=
  match m with
  | Some a => k a
  | None => None
  end.

Notation "x <- m ;; k" := (bind m (fun x => k))
  (at level 61, m at next level, right associativity).

(** ** Columns, cells and frames *)

(** A float64 value that is not NaN: a finite number or an infinity. *)
Inductive xnum : Type :=
| Finite (q : Q)
| Infinite (negative : bool).

Inductive column : Type :=
| NumCol (v : list (option Q))
| ObjCol (v : list (option string))
| XCol (v : list (option xnum)).

Inductive cell : Type :=
| CNum (x : option Q)
| CObj (s : option string)
| CInf (negative : bool).

(** The cell of a float64 entry. *)
Definition xcell (x : option xnum) : cell :=
  match x with
  | None => CNum None
  | Some (Finite q) => CNum (Some q)
  | Some (Infinite b) => CInf b
  end.

Definition DataFrame : Type := list (string * column).

Definition col_len (c : column) : nat :=
  match c with
  | NumCol v => List.length v
  | ObjCol v => List.length v
  | XCol v => List.length v
  end.

Definition cells (c : column) : list cell :=
  match c with
  | NumCol v => map CNum v
  | ObjCol v => map CObj v
  | XCol v => map xcell v
  end.

(** [len(df)] *)
Definition nrows (d : DataFrame) : nat :=
  match d with
  | [] => 0
  | (_, c) :: _ => col_len c
  end.

(** [df.columns] *)
Definition columns (d : DataFrame) : list string := map fst d.

(** [df[c]]; [KeyError] when the column is absent. *)
Fixpoint getitem (d : DataFrame) (c : string) : option column :=
  match d with
  | [] => None
  | (n, v) :: d' => if String.eqb n c then Some v else getitem d' c
  end.

Fixpoint put_col (d : DataFrame) (c : string) (v : column) : DataFrame :=
  match d with
  | [] => [(c, v)]
  | (n, w) :: d' =>
      if String.eqb n c then (n, v) :: d' else (n, w) :: put_col d' c v
  end.

(** [df[c] = v]: replaces the column in place, or appends it as the last
    column; [ValueError] when the length does not match the frame. *)
Definition setitem_df (d : DataFrame) (c : string) (v : column)
  : option DataFrame :=
  match d with
  | [] => Some [(c, v)]
  | _ => if Nat.eqb (col_len v) (nrows d) then Some (put_col d c v) else None
  end.

(** [df.drop(columns=names)]; [KeyError] when a name is absent. *)
Definition drop (d : DataFrame) (names : list string) : option DataFrame :=
  if forallb (fun n => existsb (String.eqb n) (columns d)) names
  then Some (filter (fun p => negb (existsb (String.eqb (fst p)) names)) d)
  else None.

(** Row [i] of the frame, as the tuple of its cells. *)
Definition row_at (d : DataFrame) (i : nat) : list cell :=
  map (fun p => nth i (cells (snd p)) (CNum None)) d.

Definition rows (d : DataFrame) : list (list cell) :=
  map (row_at d) (seq 0 (nrows d)).

(** Boolean indexing [s[mask]]. *)
Fixpoint select {A : Type} (m : list bool) (l : list A) : list A :=
  match m, l with
  | b :: m', x :: l' => if b then x :: select m' l' else select m' l'
  | _, _ => []
  end.

Definition select_col (m : list bool) (c : column) : column :=
  match c with
  | NumCol v => NumCol (select m v)
  | ObjCol v => ObjCol (select m v)
  | XCol v => XCol (select m v)
  end.

Definition select_df (m : list bool) (d : DataFrame) : DataFrame :=
  map (fun p => (fst p, select_col m (snd p))) d.

(** Positional indexing [s.iloc[idx]]; [IndexError] out of range. *)
Fixpoint take {A : Type} (idx : list nat) (l : list A) : option (list A) :=
  match idx with
  | [] => Some []
  | i :: idx' =>
      x <- nth_error l i ;;
      r <- take idx' l ;;
      Some (x :: r)
  end.

Definition take_col (idx : list nat) (c : column) : option column :=
  match c with
  | NumCol v => option_map NumCol (take idx v)
  | ObjCol v => option_map ObjCol (take idx v)
  | XCol v => option_map XCol (take idx v)
  end.

Fixpoint iloc (d : DataFrame) (idx : list nat) : option DataFrame :=
  match d with
  | [] => Some []
  | (n, c) :: d' =>
      c' <- take_col idx c ;;
      r <- iloc d' idx ;;
      Some ((n, c') :: r)
  end.

(** [pd.concat([a, b], ignore_index=True)] for two frames with the same
    columns in the same order and of the same dtype, which is how the script
    calls it (a frame and a slice of that frame).  Other shapes are not
    modelled and give [None]. *)
Definition append_col (a b : column) : option column :=
  match a, b with
  | NumCol v, NumCol w => Some (NumCol (v ++ w))
  | ObjCol v, ObjCol w => Some (ObjCol (v ++ w))
  | XCol v, XCol w => Some (XCol (v ++ w))
  | _, _ => None
  end.

Fixpoint pd_concat (a b : DataFrame) : option DataFrame :=
  match a, b with
  | [], [] => Some []
  | (n, c) :: a', (m, e) :: b' =>
      if String.eqb n m then
        ce <- append_col c e ;;
        r <- pd_concat a' b' ;;
        Some ((n, ce) :: r)
      else None
  | _, _ => None
  end.

(** ** Equality of cells and rows

    [duplicated] compares rows field by field; NaN equals NaN there. *)

Definition opt_eqb {A : Type} (eqb : A -> A -> bool) (a b : option A) : bool :=
  match a, b with
  | None, None => true
  | Some x, Some y => eqb x y
  | _, _ => false
  end.

Definition cell_eqb (a b : cell) : bool :=
  match a, b with
  | CNum x, CNum y => opt_eqb Qeq_bool x y
  | CObj s, CObj t => opt_eqb String.eqb s t
  | CInf m, CInf n => Bool.eqb m n
  | _, _ => false
  end.

Fixpoint row_eqb (r1 r2 : list cell) : bool :=
  match r1, r2 with
  | [], [] => true
  | a :: r1', b :: r2' => cell_eqb a b && row_eqb r1' r2'
  | _, _ => false
  end.

(** ** [duplicated] and [unique], by a table of the keys seen so far *)

Section Seen.
Context {A : Type}.
Variable eqb : A -> A -> bool.

(** [duplicated(keep='first')]: a key is flagged when it is already in the
    table; otherwise it is entered. *)
Fixpoint duplicated_from (seen : list A) (l : list A) : list bool :=
  match l with
  | [] => []
  | x :: t =>
      if existsb (eqb x) seen
      then true :: duplicated_from seen t
      else false :: duplicated_from (x :: seen) t
  end.

Definition duplicated (l : list A) : list bool := duplicated_from [] l.

(** The first occurrences, in their original order. *)
Definition keep_first (l : list A) : list A :=
  select (map negb (duplicated l)) l.

(** How many entries of [l] compare equal to [x]. *)
Definition occurrences (x : A) (l : list A) : nat :=
  List.length (filter (eqb x) l).
End Seen.

(** [df.drop_duplicates()] *)
Definition drop_duplicates (d : DataFrame) : DataFrame :=
  select_df (map negb (duplicated row_eqb (rows d))) d.

(** [df.duplicated().sum()] *)
Definition duplicated_sum (d : DataFrame) : nat :=
  List.length (filter (fun b => b) (duplicated row_eqb (rows d))).

(** ** Sorting, as [np.sort] and [sorted] deliver it *)

Section Sort.
Context {A : Type}.
Variable leb : A -> A -> bool.

Fixpoint insert (x : A) (l : list A) : list A :=
  match l with
  | [] => [x]
  | y :: t => if leb x y then x :: l else y :: insert x t
  end.

Fixpoint sort (l : list A) : list A :=
  match l with
  | [] => []
  | x :: t => insert x (sort t)
  end.
End Sort.

(** ** Floats with NaN *)

Definition float : Type := option Q.

Definition lift2 (f : Q -> Q -> Q) (a b : float) : float :=
  match a, b with
  | Some x, Some y => Some (f x y)
  | _, _ => None
  end.

Definition fadd : float -> float -> float := lift2 Qplus.
Definition fsub : float -> float -> float := lift2 Qminus.
Definition fmul : float -> float -> float := lift2 Qmult.

Definition Qltb (x y : Q) : bool := negb (Qle_bool y x).

(** [a < b] on floats: false as soon as one side is NaN. *)
Definition flt (a b : float) : bool :=
  match a, b with
  | Some x, Some y => Qltb x y
  | _, _ => false
  end.

(** ** Series operations *)

(** [s.dropna()] *)
Fixpoint dropna {A : Type} (v : list (option A)) : list A :=
  match v with
  | [] => []
  | Some x :: t => x :: dropna t
  | None :: t => dropna t
  end.

(** [s.isnull().sum()] *)
Definition isnull_sum_vals {A : Type} (v : list (option A)) : nat :=
  List.length (filter (fun o => match o with None => true | Some _ => false end) v).

Definition isnull_sum (c : column) : nat :=
  match c with
  | NumCol v => isnull_sum_vals v
  | ObjCol v => isnull_sum_vals v
  | XCol v => isnull_sum_vals v
  end.

(** [s.replace(old, new)] with string arguments. *)
Definition replace (c : column) (old new : string) : column :=
  match c with
  | NumCol v => NumCol v
  | XCol v => XCol v
  | ObjCol v =>
      ObjCol (map (fun o =>
                     match o with
                     | Some s => if String.eqb s old then Some new else Some s
                     | None => None
                     end) v)
  end.

(** ** Reading numbers: [pd.to_numeric]

    On a column of dtype object [to_numeric] takes the entries one by one
    ([maybe_convert_numeric]).  A string goes to [floatify], which runs the
    number reader of the C tokenizer ([precise_xstrtod], with [.] as the
    decimal point, [E] as the exponent mark and trailing blanks skipped)
    and asks that it consume the whole string; when it does not, the
    spellings of infinity are tried, and what is left is a [ValueError].
    The value read is kept exactly; digits beyond the precision of a
    float64 and magnitudes beyond its range are not told apart here. *)

Definition digit (c : ascii) : option Z :=
  let n := nat_of_ascii c in
  if (48 <=? n)%nat && (n <=? 57)%nat then Some (Z.of_nat (n - 48)) else None.

(** [isspace_ascii]: the blank and the characters 9 to 13. *)
Definition isspace_ascii (c : ascii) : bool :=
  let n := nat_of_ascii c in
  (n =? 32)%nat || ((9 <=? n)%nat && (n <=? 13)%nat).

Fixpoint skip_spaces (s : string) : string :=
  match s with
  | String c s' => if isspace_ascii c then skip_spaces s' else s
  | EmptyString => s
  end.

(** An optional sign: whether it is a minus, and what follows it. *)
Definition sign (s : string) : bool * string :=
  match s with
  | String "-" s' => (true, s')
  | String "+" s' => (false, s')
  | _ => (false, s)
  end.

(** A run of digits read into the number [acc], [k] counting them; the
    rest of the string comes back with the number and the count. *)
Fixpoint digits (s : string) (acc : Z) (k : nat) : Z * nat * string :=
  match s with
  | EmptyString => (acc, k, s)
  | String c s' =>
      match digit c with
      | Some d => digits s' (10 * acc + d)%Z (S k)
      | None => (acc, k, s)
      end
  end.

Definition is_exponent_mark (c : ascii) : bool :=
  Ascii.eqb c "e" || Ascii.eqb c "E".

(** The exponent part, read at the exponent mark: an optional sign and a
    run of digits.  Without a digit the mark is not consumed. *)
Definition exponent_part (p : string) : Z * string :=
  match p with
  | String c p' =>
      if is_exponent_mark c then
        let '(negative, p'') := sign p' in
        let '(n, k, rest) := digits p'' 0%Z 0%nat in
        if (k =? 0)%nat then (0%Z, p)
        else ((if negative then - n else n)%Z, rest)
      else (0%Z, p)
  | EmptyString => (0%Z, p)
  end.

(** The fraction, read at the decimal point: its digits go on into the
    same number and the same count. *)
Definition fraction_part (p : string) (number : Z) (num_digits : nat)
  : Z * nat * string :=
  match p with
  | String "." p' => digits p' number num_digits
  | _ => (number, num_digits, p)
  end.

(** [precise_xstrtod]: leading blanks, an optional sign, digits, a
    fraction, for whose digits the exponent is lowered by their count, an
    exponent part, trailing blanks.  The result is the value and the part
    of the string not consumed; there is none when no digit was read. *)
Definition xstrtod (s : string) : option (Q * string) :=
  let '(negative, p) := sign (skip_spaces s) in
  let '(number, num_int, p) := digits p 0%Z 0%nat in
  let '(number, num_digits, p) := fraction_part p number num_int in
  if (num_digits =? 0)%nat then None
  else
    let num_decimals := (num_digits - num_int)%nat in
    let number := if negative then (- number)%Z else number in
    let '(e, p) := exponent_part p in
    let exponent := (e - Z.of_nat num_decimals)%Z in
    Some ((inject_Z number * 10 ^ exponent)%Q, skip_spaces p).

(** [to_double]: the number, when the whole string was consumed. *)
Definition to_double (s : string) : option Q :=
  match xstrtod s with
  | Some (q, EmptyString) => Some q
  | _ => None
  end.

Definition lower (c : ascii) : ascii :=
  let n := nat_of_ascii c in
  if (65 <=? n)%nat && (n <=? 90)%nat then ascii_of_nat (n + 32) else c.

Fixpoint lowercase (s : string) : string :=
  match s with
  | EmptyString => EmptyString
  | String c s' => String (lower c) (lowercase s')
  end.

Inductive parsed : Type :=
| Number (q : Q)
| Infinity (negative : bool)
| NoNumber.                    (* the parser's [ValueError] *)

(** [floatify]: a number; failing that, one of the spellings of infinity,
    compared without regard to case. *)
Definition floatify (s : string) : parsed :=
  match to_double s with
  | Some q => Number q
  | None =>
      let w := lowercase s in
      if String.eqb w "inf" || String.eqb w "+inf"
         || String.eqb w "infinity" || String.eqb w "+infinity"
      then Infinity false
      else if String.eqb w "-inf" || String.eqb w "-infinity"
      then Infinity true
      else NoNumber
  end.

(** The [errors] argument of [to_numeric]. *)
Inductive errors : Type := Raise | Coerce.

(** One entry of a column of strings: a missing entry and the empty
    string give NaN; any other string is parsed, and the parser's error
    is raised again under [errors='raise'] and gives NaN under
    [errors='coerce']. *)
Definition convert (e : errors) (o : option string) : option (option xnum) :=
  match o with
  | None => Some None
  | Some EmptyString => Some None
  | Some s =>
      match floatify s with
      | Number q => Some (Some (Finite q))
      | Infinity b => Some (Some (Infinite b))
      | NoNumber =>
          match e with
          | Coerce => Some None
          | Raise => None
          end
      end
  end.

Fixpoint mapM {A B : Type} (f : A -> option B) (l : list A) : option (list B) :=
  match l with
  | [] => Some []
  | x :: t =>
      y <- f x ;;
      r <- mapM f t ;;
      Some (y :: r)
  end.

(** The entry as a rational or NaN; an infinity is neither. *)
Definition finite (x : option xnum) : option (option Q) :=
  match x with
  | None => Some None
  | Some (Finite q) => Some (Some q)
  | Some (Infinite _) => None
  end.

(** The float64 column of the given entries: [NumCol] as long as every
    entry is finite or NaN. *)
Definition float_column (v : list (option xnum)) : column :=
  match mapM finite v with
  | Some w => NumCol w
  | None => XCol v
  end.

(** [pd.to_numeric(s, errors=e)]; a numeric column comes back as it is. *)
Definition to_numeric (e : errors) (c : column) : option column :=
  match c with
  | ObjCol v => option_map float_column (mapM (convert e) v)
  | _ => Some c
  end.

Definition Qsum (l : list Q) : Q := fold_right Qplus 0%Q l.

(** [s.mean()] on numeric values, NaN skipped; NaN when nothing is left. *)
Definition mean_vals (v : list float) : float :=
  match dropna v with
  | [] => None
  | xs => Some (Qsum xs / inject_Z (Z.of_nat (List.length xs)))%Q
  end.

(** The values the numeric reductions, the comparisons with a number and
    the capping lambda work on.  On a column of dtype object they skip the
    missing entries as NaN and raise [TypeError] at the first string.  The
    arithmetic of this development is that of the rationals: a column that
    holds an infinity has no values in it. *)
Definition as_num (c : column) : option (list float) :=
  match c with
  | NumCol v => Some v
  | ObjCol v =>
      mapM (fun o => match o with
                     | None => Some None
                     | Some _ => None
                     end) v
  | XCol v => mapM finite v
  end.

Definition fillna_vals {A : Type} (v : list (option A)) (x : option A)
  : list (option A) :=
  map (fun o => match o with Some _ => o | None => x end) v.

(** [s.fillna(x)] with a scalar of the column's own kind, or with NaN,
    which fills nothing. *)
Definition fillna (c : column) (x : cell) : option column :=
  match c, x with
  | NumCol v, CNum q => Some (NumCol (fillna_vals v q))
  | ObjCol v, CObj s => Some (ObjCol (fillna_vals v s))
  | ObjCol v, CNum None => Some (ObjCol v)
  | XCol v, CNum q => Some (XCol (fillna_vals v (option_map Finite q)))
  | XCol v, CInf b => Some (XCol (fillna_vals v (Some (Infinite b))))
  | _, _ => None
  end.

Section Mode.
Context {A : Type}.
Variable eqb : A -> A -> bool.
Variable leb : A -> A -> bool.

Definition max_count (vals : list A) : nat :=
  fold_right Nat.max 0%nat (map (fun x => occurrences eqb x vals) vals).

(** [s.mode()]: the values of maximal count among the non-missing ones,
    returned in ascending order. *)
Definition mode_vals (v : list (option A)) : list A :=
  let vals := dropna v in
  sort leb
    (filter (fun x => Nat.eqb (occurrences eqb x vals) (max_count vals))
            (keep_first eqb vals)).

(** [s.nunique()] *)
Definition nunique_vals (v : list (option A)) : nat :=
  List.length (keep_first eqb (dropna v)).
End Mode.

Definition xnum_eqb (a b : xnum) : bool :=
  match a, b with
  | Finite x, Finite y => Qeq_bool x y
  | Infinite m, Infinite n => Bool.eqb m n
  | _, _ => false
  end.

Definition xnum_leb (a b : xnum) : bool :=
  match a, b with
  | Finite x, Finite y => Qle_bool x y
  | Infinite true, _ => true
  | _, Infinite false => true
  | _, _ => false
  end.

Definition mode (c : column) : column :=
  match c with
  | NumCol v => NumCol (map Some (mode_vals Qeq_bool Qle_bool v))
  | ObjCol v => ObjCol (map Some (mode_vals String.eqb String.leb v))
  | XCol v => XCol (map Some (mode_vals xnum_eqb xnum_leb v))
  end.

(** [s[0]] on a freshly built series; [KeyError] when it is empty. *)
Definition item0 (c : column) : option cell :=
  match c with
  | NumCol v => option_map CNum (hd_error v)
  | ObjCol v => option_map CObj (hd_error v)
  | XCol v => option_map xcell (hd_error v)
  end.

Definition nunique (c : column) : nat :=
  match c with
  | NumCol v => nunique_vals Qeq_bool v
  | ObjCol v => nunique_vals String.eqb v
  | XCol v => nunique_vals xnum_eqb v
  end.

(** [s.min()] and [s.max()], NaN skipped. *)
Definition min_vals (v : list float) : float :=
  match dropna v with
  | [] => None
  | x :: xs => Some (fold_left (fun a b => if Qle_bool b a then b else a) xs x)
  end.

Definition max_vals (v : list float) : float :=
  match dropna v with
  | [] => None
  | x :: xs => Some (fold_left (fun a b => if Qle_bool a b then b else a) xs x)
  end.

(** Linear interpolation as numpy writes it. *)
Definition lerp (a b t : Q) : Q :=
  if Qle_bool (1 # 2) t
  then (b - (b - a) * (1 - t))%Q
  else (a + (b - a) * t)%Q.

(** [s.quantile(p)], method 'linear': NaN dropped, values sorted, the
    virtual index [p * (n - 1)] split into its floor and its fraction. *)
Definition quantile_vals (p : Q) (v : list float) : float :=
  let s := sort Qle_bool (dropna v) in
  match s with
  | [] => None
  | _ =>
      let n := List.length s in
      let h := (p * inject_Z (Z.of_nat (n - 1)))%Q in
      let i := Z.to_nat (Qfloor h) in
      let g := (h - inject_Z (Qfloor h))%Q in
      let j := Nat.min (i + 1) (n - 1) in
      Some (lerp (nth i s 0%Q) (nth j s 0%Q) g)
  end.

(** Lines 255-259: minimum, Q1, Q2, Q3 and maximum of a series. *)
Definition five_number_summary (v : list float)
  : float * float * float * float * float :=
  (min_vals v, quantile_vals 0.25 v, quantile_vals 0.50 v,
   quantile_vals 0.75 v, max_vals v).

(** The lambda of the capping steps:
    [lower if x < lower else (upper if x > upper else x)]. *)
Definition cap (lower upper x : float) : float :=
  if flt x lower then lower else if flt upper x then upper else x.

(** The limits of the 1.5 x IQR rule, from the current values. *)
Definition iqr_limits (v : list float) : float * float :=
  let Q1 := quantile_vals 0.25 v in
  let Q3 := quantile_vals 0.75 v in
  let IQR := fsub Q3 Q1 in
  (fsub Q1 (fmul (Some 1.5%Q) IQR), fadd Q3 (fmul (Some 1.5%Q) IQR)).

(** One capping pass over a series of values: [s.apply(lambda ...)] with
    the limits just computed. *)
Definition cap_vals (v : list float) : list float :=
  let '(lower, upper) := iqr_limits v in
  map (cap lower upper) v.

(** ** Encoders *)

Fixpoint index_of (x : string) (l : list string) : option nat :=
  match l with
  | [] => None
  | y :: t => if String.eqb x y then Some 0%nat else option_map S (index_of x t)
  end.

(** The fitted categories of an encoder left to find them: the distinct
    values in ascending order. *)
Definition classes (v : list (option string)) : list string :=
  sort String.leb (keep_first String.eqb (dropna v)).

Definition indicator (k : string) (v : list (option string)) : column :=
  NumCol (map (fun o => Some (if opt_eqb String.eqb o (Some k) then 1 else 0)%Q) v).

(** [pd.get_dummies(s, prefix=p, drop_first=b, dtype=int)] on a column of
    strings: one 0/1 column per category, the first category left out when
    [drop_first] is set.  The result is a frame of its own. *)
Definition get_dummies (c : column) (prefix : string) (drop_first : bool)
  : option DataFrame :=
  match c with
  | ObjCol v =>
      let cats := if drop_first then tl (classes v) else classes v in
      Some (map (fun k => ((prefix ++ "_" ++ k)%string, indicator k v)) cats)
  | _ => None
  end.

Definition code (cats : list string) (o : option string) : option float :=
  match o with
  | Some s => option_map (fun i => Some (inject_Z (Z.of_nat i))) (index_of s cats)
  | None => None
  end.

(** [OrdinalEncoder(categories=[cats]).fit_transform(df[[c]])]: the rank of
    each value in [cats]; [ValueError] on a value outside [cats]. *)
Definition ordinal_encode (cats : list string) (c : column) : option column :=
  match c with
  | ObjCol v => option_map NumCol (mapM (code cats) v)
  | _ => None
  end.

(** [LabelEncoder().fit_transform(s)]: the position of each value among the
    fitted classes; [TypeError] when a NaN sits among the strings. *)
Definition label_encode (c : column) : option column :=
  match c with
  | ObjCol v => option_map NumCol (mapM (code (classes v)) v)
  | _ => None
  end.

(** ** The stages of the script, as functions of the current frame *)

(** [df[c].replace('twenty-eight', '28')] *)
Definition replaced (c : string) (d : DataFrame) : option column :=
  s <- getitem d c ;;
  Some (replace s "twenty-eight" "28").

(** [pd.to_numeric(df[c], errors='coerce')] *)
Definition numeric (c : string) (d : DataFrame) : option column :=
  s <- getitem d c ;;
  to_numeric Coerce s.

(** [m = df[c].mean(); df[c].fillna(m)] *)
Definition fill_mean (c : string) (d : DataFrame) : option column :=
  s <- getitem d c ;;
  v <- as_num s ;;
  let m := mean_vals v in
  fillna s (CNum m).

(** [m = df[c].mode()[0]; df[c].fillna(m)] *)
Definition fill_mode (c : string) (d : DataFrame) : option column :=
  s <- getitem d c ;;
  m <- item0 (mode s) ;;
  fillna s m.

Definition columns_to_drop : list string := ["country"; "pan_card"].

(** [df[[c1, ..., cn]]]: the named columns in the order asked for;
    [KeyError] when one of them is absent. *)
Definition getitems (names : list string) (d : DataFrame) : option DataFrame :=
  mapM (fun c => v <- getitem d c ;; Some (c, v)) names.

(** [s.isin(t)] *)
Definition isin (s t : column) : list bool :=
  map (fun x => existsb (cell_eqb x) (cells t)) (cells s).

(** [df[df.duplicated(keep=False)].sort_values(c)]: the rows that occur more
    than once, with the column they are to be sorted by; [KeyError] when
    that column is absent. *)
Definition duplicates_by (c : string) (d : DataFrame)
  : option (DataFrame * column) :=
  let r := rows d in
  let m := map (fun x => Nat.ltb 1 (occurrences row_eqb x r)) r in
  k <- getitem (select_df m d) c ;;
  Some (select_df m d, k).

(** The five-number summary of [df[c]]. *)
Definition summary_of (c : string) (d : DataFrame)
  : option (float * float * float * float * float) :=
  s <- getitem d c ;;
  v <- as_num s ;;
  Some (five_number_summary v).

(** [df[(df[c] < lower_limit) | (df[c] > upper_limit)]] *)
Definition outliers_of (c : string) (d : DataFrame) : option DataFrame :=
  s <- getitem d c ;;
  v <- as_num s ;;
  let '(lower_limit, upper_limit) := iqr_limits v in
  Some (select_df (map (fun x => flt x lower_limit || flt upper_limit x) v) d).

(** [df[c].apply(lambda x: ...)] with the limits of [df[c]]. *)
Definition capped (c : string) (d : DataFrame) : option column :=
  s <- getitem d c ;;
  v <- as_num s ;;
  Some (NumCol (cap_vals v)).

Definition size_order : list string := ["Small"; "Medium"; "Large"; "XL"].
Definition grade_order : list string := ["C"; "B"; "A"].

Definition encoded_by (f : column -> option column) (c : string) (d : DataFrame)
  : option column :=
  s <- getitem d c ;;
  f s.

(** ** Variables, objects and statements *)

Record Store : Type := mkStore {
  heap : list DataFrame;        (* the frame objects, by identity *)
  env : list (string * nat)     (* variable -> object *)
}.

Fixpoint lookup (e : list (string * nat)) (x : string) : option nat :=
  match e with
  | [] => None
  | (y, r) :: e' => if String.eqb y x then Some r else lookup e' x
  end.

Fixpoint bind_var (e : list (string * nat)) (x : string) (r : nat)
  : list (string * nat) :=
  match e with
  | [] => [(x, r)]
  | (y, q) :: e' =>
      if String.eqb y x then (y, r) :: e' else (y, q) :: bind_var e' x r
  end.

Fixpoint update {A : Type} (l : list A) (i : nat) (x : A) : list A :=
  match l, i with
  | [], _ => []
  | _ :: t, O => x :: t
  | y :: t, S i' => y :: update t i' x
  end.

(** The frame a variable refers to; [NameError] when it is unbound. *)
Definition frame (s : Store) (x : string) : option DataFrame :=
  r <- lookup (env s) x ;;
  nth_error (heap s) r.

Definition stmt : Type := Store -> option Store.

(** [x = <new frame built from y>]: a fresh object, then [x] is bound to it. *)
Definition rebind (x y : string) (f : DataFrame -> option DataFrame) : stmt :=
  fun s =>
    d <- frame s y ;;
    d' <- f d ;;
    Some (mkStore (heap s ++ [d']) (bind_var (env s) x (List.length (heap s)))).

(** [x = pd.DataFrame(data)] *)
Definition create (x : string) (data : DataFrame) : stmt :=
  fun s =>
    Some (mkStore (heap s ++ [data]) (bind_var (env s) x (List.length (heap s)))).

(** [x[c] = <column computed from x>]: the object [x] refers to is changed
    in place; every variable that refers to it sees the change. *)
Definition setitem (x c : string) (f : DataFrame -> option column) : stmt :=
  fun s =>
    r <- lookup (env s) x ;;
    d <- nth_error (heap s) r ;;
    v <- f d ;;
    d' <- setitem_df d c v ;;
    Some (mkStore (update (heap s) r d') (env s)).

Fixpoint run (p : list stmt) (s : Store) : option Store :=
  match p with
  | [] => Some s
  | c :: p' =>
      s' <- c s ;;
      run p' s'
  end.

(** ** The script *)

(** Lines 52-55 and 122. *)
Definition setup (data : DataFrame) : list stmt :=
  [ create "df" data;
    rebind "df" "df" (fun d => t <- iloc d [4; 5; 6]%nat ;; pd_concat d t);
    rebind "df_clean" "df" (fun d => Some d) ].

(** Lines 123-125. *)
Definition treat_types : list stmt :=
  [ setitem "df_clean" "age" (replaced "age");
    setitem "df_clean" "age" (numeric "age") ].

(** An expression the script evaluates only to print it: the store stays
    as it is, and an exception of the expression ends the script. *)
Definition shown {A : Type} (e : Store -> option A) : stmt :=
  fun s => bind (e s) (fun _ => Some s).

(** Lines 144-148. *)
Definition treat_duplicates : list stmt :=
  [ shown (fun s => d <- frame s "df_clean" ;; duplicates_by "customer_id" d);
    rebind "df_clean" "df_clean" (fun d => Some (drop_duplicates d)) ].

(** Lines 177-203. *)
Definition treat_missing : list stmt :=
  [ setitem "df_clean" "age" (fill_mean "age");
    setitem "df_clean" "city" (fill_mode "city");
    setitem "df_clean" "purchase_amount" (fill_mean "purchase_amount");
    setitem "df_clean" "shirt_size" (fill_mode "shirt_size") ].

(** Lines 239-240. *)
Definition treat_columns : list stmt :=
  [ rebind "df_clean" "df_clean" (fun d => drop d columns_to_drop) ].

(** Lines 255-299: the five-number summary, the frame of outliers and the
    three fields printed of it, the capping, and the capped rows printed
    by way of [isin]. *)
Definition treat_purchase_outliers : list stmt :=
  [ shown (fun s => d <- frame s "df_clean" ;; summary_of "purchase_amount" d);
    rebind "outliers" "df_clean" (outliers_of "purchase_amount");
    shown (fun s =>
             o <- frame s "outliers" ;;
             getitems ["customer_id"; "name"; "purchase_amount"] o);
    setitem "df_clean" "purchase_amount" (capped "purchase_amount");
    shown (fun s =>
             d <- frame s "df_clean" ;;
             o <- frame s "outliers" ;;
             ids <- getitem d "customer_id" ;;
             out_ids <- getitem o "customer_id" ;;
             getitems ["customer_id"; "name"; "purchase_amount"]
                      (select_df (isin ids out_ids) d)) ].

(** Lines 310-332. *)
Definition treat_age_outliers : list stmt :=
  [ rebind "age_outliers" "df_clean" (outliers_of "age");
    shown (fun s =>
             o <- frame s "age_outliers" ;;
             getitems ["customer_id"; "name"; "age"] o);
    setitem "df_clean" "age" (capped "age") ].

(** Lines 361-385. *)
Definition encode : list stmt :=
  [ rebind "city_encoded" "df_clean"
      (fun d => s <- getitem d "city" ;; get_dummies s "city" true);
    setitem "df_clean" "size_encoded"
      (encoded_by (ordinal_encode size_order) "shirt_size");
    setitem "df_clean" "grade_encoded"
      (encoded_by (ordinal_encode grade_order) "grade");
    setitem "df_clean" "category_encoded"
      (encoded_by label_encode "product_category") ].

(** Everything that follows [df_clean = df.copy()]. *)
Definition stages : list stmt :=
  treat_types ++ treat_duplicates ++ treat_missing ++ treat_columns
  ++ treat_purchase_outliers ++ treat_age_outliers ++ encode.

Definition script (data : DataFrame) : list stmt := setup data ++ stages.

Definition empty_store : Store := mkStore [] [].

(** ** The literal dataset (lines 13-50) *)

Definition nan {A : Type} : option A := None.

Definition ints (l : list Z) : column := NumCol (map (fun z => Some (inject_Z z)) l).
Definition strs (l : list string) : column := ObjCol (map Some l).

Definition data : DataFrame :=
  [ ("customer_id",
     ints [101; 102; 103; 104; 105; 106; 107; 108; 109; 110;
           111; 112; 113; 114; 115; 116; 117; 118; 119; 120]%Z);
    ("name",
     strs ["John"; "Sarah"; "Mike"; "Emma"; "John"; "Sarah"; "Mike";
           "David"; "Lisa"; "Tom"; "Jerry"; "Kate"; "Bob"; "Alice";
           "Charlie"; "Diana"; "Eve"; "Frank"; "Grace"; "Henry"]);
    ("age",
     ObjCol [Some "25"; Some "30"; Some "twenty-eight"; Some "35"; Some "25";
             Some "30"; Some "twenty-eight"; Some "40"; Some "22"; Some "150";
             Some "28"; Some "33"; nan; Some "29"; Some "31"; Some "27";
             Some "26"; nan; Some "32"; Some "24"]);
    ("city",
     ObjCol [Some "Bangalore"; Some "Chennai"; Some "Hyderabad"; Some "Delhi";
             Some "Bangalore"; Some "Chennai"; Some "Hyderabad"; Some "Mumbai";
             Some "Pune"; Some "Bangalore"; Some "Chennai"; Some "Hyderabad";
             Some "Delhi"; nan; Some "Mumbai"; Some "Bangalore"; nan;
             Some "Chennai"; Some "Pune"; Some "Delhi"]);
    ("purchase_amount",
     NumCol [Some 1200.50; Some 800.30; nan; Some 1500.00; Some 1200.50;
             Some 800.30; nan; Some 2200.00; Some 950.00; Some 50000.00;
             Some 1100.00; nan; Some 1300.00; Some 1450.00; Some 1800.00;
             Some 1250.00; nan; Some 980.00; Some 1150.00; Some 45000.00]%Q);
    ("country",
     strs ["India"; "India"; "India"; "India"; "India"; "India"; "India";
           "India"; "India"; "India"; "India"; "India"; "India"; "India";
           "India"; "India"; "India"; "India"; "India"; "India"]);
    ("pan_card",
     strs ["ABCDE1234F"; "FGHIJ5678K"; "KLMNO9012P"; "QRSTU3456V";
           "WXYZA7890B"; "CDEFG2345H"; "IJKLM6789N"; "OPQRS0123T";
           "UVWXY4567Z"; "ABCDF8901E"; "GHIJK2345L"; "MNOPQ6789R";
           "STUVW0123X"; "YZABC4567D"; "DEFGH8901J"; "IJKLM2345P";
           "NOPQR6789V"; "STUVW0123B"; "XYZAB4567H"; "CDEFG8901N"]);
    ("product_category",
     strs ["Electronics"; "Clothing"; "Electronics"; "Furniture";
           "Electronics"; "Clothing"; "Electronics"; "Furniture";
           "Clothing"; "Electronics"; "Clothing"; "Furniture";
           "Electronics"; "Clothing"; "Furniture"; "Electronics";
           "Clothing"; "Electronics"; "Furniture"; "Electronics"]);
    ("shirt_size",
     ObjCol [Some "Small"; Some "Medium"; nan; Some "Large"; Some "Small";
             Some "Medium"; nan; Some "XL"; Some "Small"; Some "Medium";
             Some "Large"; Some "XL"; Some "Small"; nan; Some "Large";
             Some "Medium"; Some "Small"; Some "XL"; Some "Medium";
             Some "Large"]);
    ("grade",
     strs ["A"; "B"; "A"; "C"; "B"; "A"; "B"; "A"; "C"; "B";
           "A"; "C"; "B"; "A"; "C"; "B"; "A"; "B"; "C"; "A"]) ].

(** The script's states at the points the properties speak of. *)
Definition after (p : list stmt) : option Store := run p empty_store.

Definition at_copy : option Store := after (setup data).
Definition at_typed : option Store := after (setup data ++ treat_types).
Definition at_deduplicated : option Store :=
  after (setup data ++ treat_types ++ treat_duplicates).
Definition at_imputed : option Store :=
  after (setup data ++ treat_types ++ treat_duplicates ++ treat_missing).
Definition at_pruned : option Store :=
  after (setup data ++ treat_types ++ treat_duplicates ++ treat_missing
         ++ treat_columns).
Definition at_purchase_capped : option Store :=
  after (setup data ++ treat_types ++ treat_duplicates ++ treat_missing
         ++ treat_columns ++ treat_purchase_outliers).
Definition at_end : option Store := after (script data).

(** [x[c]] in a state of the script. *)
Definition column_of (o : option Store) (x c : string) : option column :=
  s <- o ;;
  d <- frame s x ;;
  getitem d c.

Definition frame_of (o : option Store) (x : string) : option DataFrame :=
  s <- o ;;
  frame s x.

(** ** Vocabulary of the properties *)

Local Open Scope Q_scope.

(** The value [quantile_vals] interpolates to, on values already sorted. *)
Definition interpolate (p : Q) (s : list Q) : Q :=
  let n := List.length s in
  let h := p * inject_Z (Z.of_nat (n - 1)) in
  let i := Z.to_nat (Qfloor h) in
  let g := h - inject_Z (Qfloor h) in
  let j := Nat.min (i + 1) (n - 1) in
  lerp (nth i s 0) (nth j s 0) g.

(** A value inside the closed interval; NaN is not judged. *)
Definition within (lo hi : Q) (o : float) : Prop :=
  match o with
  | Some x => lo <= x /\ x <= hi
  | None => True
  end.

Local Close Scope Q_scope.

Definition smode : list (option string) -> list string :=
  mode_vals String.eqb String.leb.

Definition socc : string -> list string -> nat := occurrences String.eqb.

(** Reference reading of the tie-break for comparison: the first value,
    in row order, whose count is maximal. *)
Definition first_encountered_mode (v : list (option string)) : option string :=
  let vals := dropna v in
  find (fun x => Nat.eqb (socc x vals) (max_count String.eqb vals)) vals.

(** *** The numeric literals, as a grammar

    A literal is made of leading blanks, an optional sign, digits, an
    optional point with digits after it, an optional exponent (the mark [e]
    or [E], an optional sign and at least one digit) and trailing blanks;
    there is at least one digit before the exponent. *)

Fixpoint all_chars (p : ascii -> bool) (s : string) : bool :=
  match s with
  | EmptyString => true
  | String c s' => p c && all_chars p s'
  end.





















(** Two fields compare equal, as the duplicate check reads it: two numbers
    of the same value, the same string, or two missing entries. *)
Inductive same_field : cell -> cell -> Prop :=
| same_number x y : (x == y)%Q -> same_field (CNum (Some x)) (CNum (Some y))
| same_nan : same_field (CNum None) (CNum None)
| same_string s : same_field (CObj (Some s)) (CObj (Some s))
| same_none : same_field (CObj None) (CObj None)
| same_infinity b : same_field (CInf b) (CInf b).

(** Rows [i] and [j] of a frame agree in every field. *)
Definition same_rows (d : DataFrame) (i j : nat) : Prop :=
  Forall (fun p => exists a b,
              nth_error (cells (snd p)) i = Some a /\
              nth_error (cells (snd p)) j = Some b /\
              same_field a b) d.

(** The frame [df] refers to is [d0], and no other variable refers to that
    object. *)
Definition df_untouched (d0 : DataFrame) (s : Store) : Prop :=
  exists r,
    lookup (env s) "df" = Some r /\
    nth_error (heap s) r = Some d0 /\
    forall x r', x <> "df" -> lookup (env s) x = Some r' -> r' <> r.

Definition preserves_df (c : stmt) : Prop :=
  forall d0 s s', df_untouched d0 s -> c s = Some s' -> df_untouched d0 s'.

(** The values of a numeric column read in a state of the script. *)
Definition values_of (o : option column) : list float :=
  match o with
  | Some (NumCol v) => v
  | _ => []
  end.

Definition strings_of (o : option column) : list (option string) :=
  match o with
  | Some (ObjCol v) => v
  | _ => []
  end.

(** Two series hold the same numbers, position by position. *)
Fixpoint same_values (a b : list float) : bool :=
  match a, b with
  | [], [] => true
  | x :: a', y :: b' => opt_eqb Qeq_bool x y && same_values a' b'
  | _, _ => false
  end.

(** The state in which [purchase_mean] is computed: age and city filled. *)
Definition at_city_filled : option Store :=
  after (setup data ++ treat_types ++ treat_duplicates
         ++ firstn 2 treat_missing).

(** The state in which [size_mode] is computed. *)
Definition at_purchase_filled : option Store :=
  after (setup data ++ treat_types ++ treat_duplicates
         ++ firstn 3 treat_missing).

(** The state in which [city_mode] is computed. *)
Definition at_age_filled : option Store :=
  after (setup data ++ treat_types ++ treat_duplicates
         ++ firstn 1 treat_missing).

(** The state before the encoders run. *)
Definition at_age_capped : option Store :=
  after (setup data ++ treat_types ++ treat_duplicates ++ treat_missing
         ++ treat_columns ++ treat_purchase_outliers ++ treat_age_outliers).

(** The scalars the script computes on its way. *)
Definition age_mean : float :=
  mean_vals (values_of (column_of at_deduplicated "df_clean" "age")).

Definition purchase_mean : float :=
  mean_vals (values_of (column_of at_city_filled "df_clean" "purchase_amount")).

Definition city_mode : option cell :=
  c <- column_of at_age_filled "df_clean" "city" ;;
  item0 (mode c).

Definition size_mode : option cell :=
  c <- column_of at_purchase_filled "df_clean" "shirt_size" ;;
  item0 (mode c).

Definition purchase_limits : float * float :=
  iqr_limits (values_of (column_of at_pruned "df_clean" "purchase_amount")).

Definition age_limits : float * float :=
  iqr_limits (values_of (column_of at_purchase_capped "df_clean" "age")).

(** ** Further parts of the scripts *)

(** A frame as pandas keeps it: every column as long as the frame. *)
Definition rectangular (d : DataFrame) : Prop :=
  Forall (fun p => col_len (snd p) = nrows d) d.

(** The frame without its first row. *)
Definition tail_col (c : column) : column :=
  match c with
  | NumCol v => NumCol (tl v)
  | ObjCol v => ObjCol (tl v)
  | XCol v => XCol (tl v)
  end.

Definition tail_df (d : DataFrame) : DataFrame :=
  map (fun p => (fst p, tail_col (snd p))) d.


(** Lines 216-224: the cardinality check of the explore step. *)
Inductive cardinality : Type :=
| AllSame      (* "ALL VALUES ARE THE SAME!" *)
| AllUnique    (* "ALL VALUES ARE UNIQUE!" *)
| Varied.

Definition cardinality_of (d : DataFrame) (c : column) : cardinality :=
  let unique_count := nunique c in
  let total_count := nrows d in
  if Nat.eqb unique_count 1 then AllSame
  else if Nat.eqb unique_count total_count then AllUnique
  else Varied.

(** The present values of a series are all equal to one of them. *)
Definition one_value {A : Type} (eqb : A -> A -> bool) (l : list A) : Prop :=
  exists x, In x l /\ Forall (fun y => eqb y x = true) l.

Definition same_throughout (c : column) : Prop :=
  match c with
  | NumCol v => one_value Qeq_bool (dropna v)
  | ObjCol v => one_value String.eqb (dropna v)
  | XCol v => one_value xnum_eqb (dropna v)
  end.

(** No two present values of a series are equal. *)
Definition distinct_throughout (c : column) : Prop :=
  match c with
  | NumCol v => ForallOrdPairs (fun a b => Qeq_bool a b = false) (dropna v)
  | ObjCol v => ForallOrdPairs (fun a b => String.eqb a b = false) (dropna v)
  | XCol v => ForallOrdPairs (fun a b => xnum_eqb a b = false) (dropna v)
  end.

(** Lines 88-91: [(df[col].isnull().sum() / len(df)) * 100]; on a frame
    without rows the quotient 0/0 is NaN. *)
Definition missing_pct (d : DataFrame) (c : column) : float :=
  if Nat.eqb (nrows d) 0 then None
  else Some (inject_Z (Z.of_nat (isnull_sum c))
             / inject_Z (Z.of_nat (nrows d)) * 100)%Q.

(** The columns the report of lines 88-91 prints: [missing_pct > 0]. *)
Definition reported_by_pct (d : DataFrame) : list string :=
  map fst (filter (fun p => flt (Some 0%Q) (missing_pct d (snd p))) d).

(** The columns the report of lines 161-165 prints: [missing_count > 0]. *)
Definition reported_by_count (d : DataFrame) : list string :=
  map fst (filter (fun p => Nat.ltb 0 (isnull_sum (snd p))) d).

(** * Proofs *)

(** ** Boolean indexing *)

Lemma select_length {A : Type} (m : list bool) (l : list A) :
  List.length m = List.length l ->
  List.length (select m l) = List.length (filter (fun b => b) m).
Proof.
  revert l; induction m as [|b m IH]; intros [|x l] E; simpl in *;
    try reflexivity; try discriminate.
  injection E as E. destruct b; simpl; rewrite (IH l E); reflexivity.
Qed.

(** ** Duplicate detection *)

Section SeenFacts.
Context {A : Type}.
Variable eqb : A -> A -> bool.
Hypothesis eqb_refl : forall x, eqb x x = true.
Hypothesis eqb_sym : forall x y, eqb x y = true -> eqb y x = true.
Hypothesis eqb_trans :
  forall x y z, eqb x y = true -> eqb y z = true -> eqb x z = true.

Let kept_from (seen l : list A) : list A :=
  select (map negb (duplicated_from eqb seen l)) l.

Lemma duplicated_from_length seen l :
  List.length (duplicated_from eqb seen l) = List.length l.
Proof.
  revert seen; induction l as [|x t IH]; intros seen; simpl.
  - reflexivity.
  - destruct (existsb (eqb x) seen); simpl; now rewrite IH.
Qed.

Lemma eqb_false_sym x y : eqb x y = false -> eqb y x = false.
Proof.
  intros H. destruct (eqb y x) eqn:E; [|reflexivity].
  apply eqb_sym in E. congruence.
Qed.

Lemma existsb_eqb_congr x y seen :
  eqb x y = true -> existsb (eqb x) seen = existsb (eqb y) seen.
Proof.
  intros H. induction seen as [|s t IH]; simpl; [reflexivity|].
  rewrite IH. f_equal.
  destruct (eqb x s) eqn:E1, (eqb y s) eqn:E2; try reflexivity.
  - apply eqb_sym in H. rewrite (eqb_trans _ _ _ H E1) in E2. discriminate.
  - rewrite (eqb_trans _ _ _ H E2) in E1. discriminate.
Qed.

Lemma filter_twice (p q : A -> bool) l :
  filter p (filter q l) = filter (fun y => q y && p y) l.
Proof.
  induction l as [|a t IH]; simpl; [reflexivity|].
  destruct (q a); simpl; [destruct (p a)|]; now rewrite IH.
Qed.

Lemma kept_from_filter seen l :
  kept_from seen l =
  filter (fun y => negb (existsb (eqb y) seen)) (kept_from [] l).
Proof.
  unfold kept_from. revert seen.
  induction l as [|x t IH]; intros seen; simpl; [reflexivity|].
  rewrite (IH [x]), filter_twice.
  destruct (existsb (eqb x) seen) eqn:E; simpl.
  - rewrite (IH seen). apply filter_ext. intros y. simpl.
    destruct (eqb y x) eqn:Eyx; simpl; [|reflexivity].
    now rewrite (existsb_eqb_congr y x seen Eyx), E.
  - f_equal. rewrite (IH (x :: seen)). apply filter_ext. intros y. simpl.
    destruct (eqb y x); reflexivity.
Qed.

(** The first occurrences, by recursion on the input. *)
Lemma keep_first_cons x t :
  keep_first eqb (x :: t) =
  x :: filter (fun y => negb (eqb y x)) (keep_first eqb t).
Proof.
  unfold keep_first, duplicated. simpl. f_equal.
  change (kept_from [x] t =
          filter (fun y => negb (eqb y x)) (kept_from [] t)).
  rewrite kept_from_filter. apply filter_ext. intros y. simpl.
  now rewrite orb_false_r.
Qed.

Lemma keep_first_incl l y : In y (keep_first eqb l) -> In y l.
Proof.
  induction l as [|x t IH]; [intros []|].
  rewrite keep_first_cons. simpl. intros [H|H]; [now left|].
  apply filter_In in H. right. apply IH, H.
Qed.

(** Every entry has an equal entry among the ones kept. *)
Lemma keep_first_represents l x :
  In x l -> exists y, In y (keep_first eqb l) /\ eqb x y = true.
Proof.
  induction l as [|a t IH]; [intros []|].
  rewrite keep_first_cons. intros [<-|H].
  - exists a. split; [now left | apply eqb_refl].
  - destruct (IH H) as [y [Hy Exy]].
    destruct (eqb y a) eqn:Eya.
    + exists a. split; [now left | now apply (eqb_trans _ y)].
    + exists y. split; [|exact Exy]. right. apply filter_In.
      now rewrite Eya.
Qed.

(** No two kept entries are equal. *)
Lemma keep_first_distinct l :
  ForallOrdPairs (fun a b => eqb a b = false) (keep_first eqb l).
Proof.
  induction l as [|x t IH]; [constructor|].
  rewrite keep_first_cons. constructor.
  - apply Forall_forall. intros y Hy. apply filter_In in Hy.
    destruct Hy as [_ Hy]. apply eqb_false_sym.
    now destruct (eqb y x).
  - clear -IH. induction IH as [|a K Ha HK IHK]; simpl; [constructor|].
    destruct (negb (eqb a x)); [|exact IHK].
    constructor; [|exact IHK].
    apply Forall_forall. intros y Hy. apply filter_In in Hy.
    rewrite Forall_forall in Ha. apply Ha, Hy.
Qed.

Lemma occurrences_congr x y l :
  eqb x y = true -> occurrences eqb x l = occurrences eqb y l.
Proof.
  intros H. unfold occurrences. f_equal. apply filter_ext. intros z.
  destruct (eqb x z) eqn:E1, (eqb y z) eqn:E2; try reflexivity.
  - apply eqb_sym in H. rewrite (eqb_trans _ _ _ H E1) in E2. discriminate.
  - rewrite (eqb_trans _ _ _ H E2) in E1. discriminate.
Qed.

Lemma occurrences_absent x l :
  (forall z, In z l -> eqb x z = false) -> occurrences eqb x l = 0%nat.
Proof.
  unfold occurrences. induction l as [|a t IH]; intros H; simpl.
  - reflexivity.
  - rewrite (H a (or_introl eq_refl)). apply IH. intros z Hz.
    apply H. now right.
Qed.

(** Among pairwise different representatives, the ones equal to [x]
    carry together as many entries of [l] as [x] has occurrences. *)
Lemma occurrences_of_class x l K :
  ForallOrdPairs (fun a b => eqb a b = false) K ->
  (forall z, In z l -> exists y, In y K /\ eqb z y = true) ->
  list_sum (map (fun y => occurrences eqb y l)
                (filter (fun y => eqb y x) K)) = occurrences eqb x l.
Proof.
  intros HK Hrep.
  assert (Hnone : (forall y, In y K -> eqb y x = false) ->
                  occurrences eqb x l = 0%nat).
  { intros Hno. apply occurrences_absent. intros z Hz.
    destruct (eqb x z) eqn:E; [|reflexivity].
    destruct (Hrep z Hz) as [y [Hy Ezy]].
    rewrite <- (Hno y Hy). symmetry. apply eqb_sym.
    now apply (eqb_trans _ z). }
  clear Hrep. induction HK as [|a K Ha HK IH]; simpl.
  - symmetry. apply Hnone. intros y [].
  - destruct (eqb a x) eqn:Eax; simpl.
    + assert (E : filter (fun y => eqb y x) K = []).
      { rewrite Forall_forall in Ha. clear -Ha Eax eqb_sym eqb_trans.
        induction K as [|k K IHK]; simpl; [reflexivity|].
        destruct (eqb k x) eqn:Ekx.
        - apply eqb_sym in Ekx.
          specialize (Ha k (or_introl eq_refl)).
          rewrite (eqb_trans _ _ _ Eax Ekx) in Ha. discriminate.
        - apply IHK. intros y Hy. apply Ha. now right. }
      rewrite E. simpl. rewrite Nat.add_0_r.
      now apply occurrences_congr.
    + apply IH. intros Hno. apply Hnone. intros y [<-|Hy]; auto.
Qed.

Lemma list_sum_filter_split {B : Type} (f : B -> nat) (p : B -> bool) K :
  list_sum (map f K) =
  (list_sum (map f (filter p K))
   + list_sum (map f (filter (fun y => negb (p y)) K)))%nat.
Proof.
  induction K as [|k K IH]; simpl; [reflexivity|].
  destruct (p k); simpl; lia.
Qed.

(** The kept entries, each counted with its occurrences, account for the
    whole input. *)
Lemma keep_first_occurrences l :
  list_sum (map (fun y => occurrences eqb y l) (keep_first eqb l))
  = List.length l.
Proof.
  induction l as [|x t IH]; [reflexivity|].
  rewrite keep_first_cons. simpl map. simpl list_sum.
  assert (Ex : occurrences eqb x (x :: t) = S (occurrences eqb x t)).
  { unfold occurrences. simpl. now rewrite eqb_refl. }
  rewrite Ex.
  assert (Et : map (fun y => occurrences eqb y (x :: t))
                   (filter (fun y => negb (eqb y x)) (keep_first eqb t))
               = map (fun y => occurrences eqb y t)
                   (filter (fun y => negb (eqb y x)) (keep_first eqb t))).
  { apply map_ext_in. intros y Hy. apply filter_In in Hy.
    destruct Hy as [_ Hy]. unfold occurrences. simpl.
    destruct (eqb y x); [discriminate | reflexivity]. }
  rewrite Et. simpl List.length. rewrite <- IH.
  rewrite (list_sum_filter_split _ (fun y => eqb y x) (keep_first eqb t)).
  rewrite (occurrences_of_class x t (keep_first eqb t)).
  - reflexivity.
  - apply keep_first_distinct.
  - apply keep_first_represents.
Qed.

(** An entry is flagged exactly when an earlier entry, or a key of the
    table, equals it. *)
Lemma duplicated_from_nth seen l i d :
  nth i (duplicated_from eqb seen l) false = true <->
  (i < List.length l)%nat /\
  (existsb (eqb (nth i l d)) seen = true \/
   exists j, (j < i)%nat /\ eqb (nth i l d) (nth j l d) = true).
Proof.
  revert seen i.
  induction l as [|x t IH]; intros seen i; simpl.
  - destruct i; split; try discriminate; intros [H _]; lia.
  - destruct (existsb (eqb x) seen) eqn:E; destruct i as [|i]; simpl.
    + split; [intros _; split; [lia | now left] | reflexivity].
    + rewrite IH. split.
      * intros [Hi [H|[j [Hj H]]]]; (split; [lia|]); [now left|].
        right. exists (S j). split; [lia | exact H].
      * intros [Hi [H|[j [Hj H]]]]; (split; [lia|]); [now left|].
        destruct j as [|j].
        -- left. simpl in H.
           now rewrite (existsb_eqb_congr _ _ seen H).
        -- right. exists j. split; [lia | exact H].
    + split; [discriminate|]. intros [_ [H|[j [Hj _]]]]; [congruence | lia].
    + rewrite IH. simpl. split.
      * intros [Hi [H|[j [Hj H]]]]; (split; [lia|]).
        -- apply orb_true_iff in H. destruct H as [H|H]; [|now left].
           right. exists 0%nat. split; [lia | exact H].
        -- right. exists (S j). split; [lia | exact H].
      * intros [Hi [H|[j [Hj H]]]]; (split; [lia|]).
        -- left. rewrite H. apply orb_true_r.
        -- destruct j as [|j].
           ++ left. simpl in H. rewrite H. reflexivity.
           ++ right. exists j. split; [lia | exact H].
Qed.
End SeenFacts.

(** Row comparison is an equivalence. *)

Lemma opt_eqb_refl {A : Type} (eqb : A -> A -> bool) :
  (forall x, eqb x x = true) -> forall o, opt_eqb eqb o o = true.
Proof. intros H [x|]; simpl; auto. Qed.

Lemma opt_eqb_sym {A : Type} (eqb : A -> A -> bool) :
  (forall x y, eqb x y = true -> eqb y x = true) ->
  forall a b, opt_eqb eqb a b = true -> opt_eqb eqb b a = true.
Proof. intros H [x|] [y|]; simpl; auto. Qed.

Lemma opt_eqb_trans {A : Type} (eqb : A -> A -> bool) :
  (forall x y z, eqb x y = true -> eqb y z = true -> eqb x z = true) ->
  forall a b c,
    opt_eqb eqb a b = true -> opt_eqb eqb b c = true -> opt_eqb eqb a c = true.
Proof. intros H [x|] [y|] [z|]; simpl; eauto; discriminate. Qed.

Lemma string_eqb_sym' (x y : string) :
  String.eqb x y = true -> String.eqb y x = true.
Proof. now rewrite String.eqb_sym. Qed.

Lemma string_eqb_trans (x y z : string) :
  String.eqb x y = true -> String.eqb y z = true -> String.eqb x z = true.
Proof. rewrite !String.eqb_eq. congruence. Qed.

Lemma cell_eqb_refl c : cell_eqb c c = true.
Proof.
  destruct c; simpl;
    [apply opt_eqb_refl, Qeq_bool_refl | apply opt_eqb_refl, String.eqb_refl
     | apply Bool.eqb_reflx].
Qed.

Lemma cell_eqb_sym a b : cell_eqb a b = true -> cell_eqb b a = true.
Proof.
  destruct a, b; simpl; try discriminate;
    [apply opt_eqb_sym, Qeq_bool_sym | apply opt_eqb_sym, string_eqb_sym'
     | rewrite !Bool.eqb_true_iff; congruence].
Qed.

Lemma cell_eqb_trans a b c :
  cell_eqb a b = true -> cell_eqb b c = true -> cell_eqb a c = true.
Proof.
  destruct a, b, c; simpl; try discriminate;
    [apply opt_eqb_trans, Qeq_bool_trans
     | apply opt_eqb_trans, string_eqb_trans
     | rewrite !Bool.eqb_true_iff; congruence].
Qed.

Lemma row_eqb_refl r : row_eqb r r = true.
Proof.
  induction r as [|c r IH]; simpl; [reflexivity|].
  now rewrite cell_eqb_refl, IH.
Qed.

Lemma row_eqb_sym r1 r2 : row_eqb r1 r2 = true -> row_eqb r2 r1 = true.
Proof.
  revert r2; induction r1 as [|a r1 IH]; intros [|b r2]; simpl;
    try discriminate; [reflexivity|].
  intros H. apply andb_true_iff in H. destruct H as [H1 H2].
  now rewrite (cell_eqb_sym _ _ H1), (IH _ H2).
Qed.

Lemma row_eqb_trans r1 r2 r3 :
  row_eqb r1 r2 = true -> row_eqb r2 r3 = true -> row_eqb r1 r3 = true.
Proof.
  revert r2 r3; induction r1 as [|a r1 IH]; intros [|b r2] [|c r3]; simpl;
    try discriminate; [reflexivity|].
  intros H K. apply andb_true_iff in H. apply andb_true_iff in K.
  destruct H as [H1 H2], K as [K1 K2].
  now rewrite (cell_eqb_trans _ _ _ H1 K1), (IH _ _ H2 K2).
Qed.

(** Two rows compare equal exactly when they have the same fields and
    every field compares equal. *)
Lemma row_eqb_fields r1 r2 :
  row_eqb r1 r2 = true <-> Forall2 (fun a b => cell_eqb a b = true) r1 r2.
Proof.
  revert r2; induction r1 as [|a r1 IH]; intros [|b r2]; simpl.
  - split; [constructor | reflexivity].
  - split; [discriminate | intros H; inversion H].
  - split; [discriminate | intros H; inversion H].
  - rewrite andb_true_iff, IH. split.
    + intros [H1 H2]. now constructor.
    + intros H. inversion H; subst. now split.
Qed.

(** ** Sorting *)

Section SortFacts.
Context {A : Type}.
Variable leb : A -> A -> bool.
Hypothesis leb_total : forall x y, leb x y = true \/ leb y x = true.
Hypothesis leb_trans :
  forall x y z, leb x y = true -> leb y z = true -> leb x z = true.

Let le (x y : A) : Prop := leb x y = true.

Lemma leb_refl x : leb x x = true.
Proof. now destruct (leb_total x x). Qed.

Lemma insert_In x l y : In y (insert leb x l) <-> y = x \/ In y l.
Proof.
  induction l as [|a t IH]; simpl.
  - intuition.
  - destruct (leb x a); simpl; [intuition|]. rewrite IH. intuition.
Qed.

Lemma sort_In l y : In y (sort leb l) <-> In y l.
Proof.
  induction l as [|a t IH]; simpl; [reflexivity|].
  rewrite insert_In, IH. intuition.
Qed.

Lemma insert_length x l :
  List.length (insert leb x l) = S (List.length l).
Proof.
  induction l as [|a t IH]; simpl; [reflexivity|].
  destruct (leb x a); simpl; [reflexivity | now rewrite IH].
Qed.

Lemma sort_length l : List.length (sort leb l) = List.length l.
Proof.
  induction l as [|a t IH]; simpl; [reflexivity|].
  now rewrite insert_length, IH.
Qed.

Lemma insert_sorted x l :
  StronglySorted le l -> StronglySorted le (insert leb x l).
Proof.
  induction 1 as [|a t Ht IH Ha]; simpl.
  - constructor; constructor.
  - destruct (leb x a) eqn:E.
    + constructor; [now constructor|].
      constructor; [exact E|].
      rewrite Forall_forall in *. intros y Hy.
      exact (leb_trans _ _ _ E (Ha y Hy)).
    + constructor; [exact IH|].
      rewrite Forall_forall in *. intros y Hy.
      apply insert_In in Hy. destruct Hy as [->|Hy]; [|now apply Ha].
      destruct (leb_total x a) as [H|H]; [congruence | exact H].
Qed.

Lemma sort_sorted l : StronglySorted le (sort leb l).
Proof.
  induction l as [|a t IH]; simpl; [constructor | now apply insert_sorted].
Qed.

Lemma sorted_nth_le l d i j :
  StronglySorted le l -> (i <= j)%nat -> (j < List.length l)%nat ->
  leb (nth i l d) (nth j l d) = true.
Proof.
  intros Hs. revert i j.
  induction Hs as [|a t Ht IH Ha]; intros i j Hij Hj; simpl in *; [lia|].
  destruct i as [|i], j as [|j]; try lia.
  - apply leb_refl.
  - rewrite Forall_forall in Ha. apply Ha, nth_In. lia.
  - apply IH; lia.
Qed.

(** The first element of a sorted list is below all the others. *)
Lemma sort_hd_least l m :
  hd_error (sort leb l) = Some m -> forall y, In y l -> leb m y = true.
Proof.
  intros Hm y Hy. apply sort_In in Hy.
  pose proof (sort_sorted l) as Hs.
  destruct (sort leb l) as [|a t]; [discriminate|].
  injection Hm as ->. inversion Hs; subst.
  destruct Hy as [->|Hy]; [apply leb_refl|].
  rewrite Forall_forall in H2. now apply H2.
Qed.

End SortFacts.

(** ** Quantiles and the 1.5 x IQR limits *)

Local Open Scope Q_scope.

Lemma Qle_bool_total x y : Qle_bool x y = true \/ Qle_bool y x = true.
Proof.
  rewrite !Qle_bool_iff. destruct (Qlt_le_dec x y) as [H|H]; [left|right]; lra.
Qed.

Lemma Qle_bool_trans x y z :
  Qle_bool x y = true -> Qle_bool y z = true -> Qle_bool x z = true.
Proof. rewrite !Qle_bool_iff. lra. Qed.

Lemma Qltb_ge x y : Qltb x y = false <-> y <= x.
Proof.
  unfold Qltb. rewrite negb_false_iff. apply Qle_bool_iff.
Qed.

(** numpy's two-branch interpolation is the usual [a + (b - a) t]. *)
Lemma lerp_linear a b t : lerp a b t == a + (b - a) * t.
Proof. unfold lerp. destruct (Qle_bool (1 # 2) t); ring. Qed.

Lemma lerp_between a b t :
  a <= b -> 0 <= t -> t <= 1 -> a <= lerp a b t /\ lerp a b t <= b.
Proof.
  intros Hab H0 H1. rewrite lerp_linear.
  assert (0 <= (b - a) * t) by (apply Qmult_le_0_compat; lra).
  assert (0 <= (b - a) * (1 - t)) by (apply Qmult_le_0_compat; lra).
  split; [lra|].
  setoid_replace (a + (b - a) * t) with (b - (b - a) * (1 - t)) by ring.
  lra.
Qed.

Lemma lerp_mono a b t u : a <= b -> t <= u -> lerp a b t <= lerp a b u.
Proof.
  intros Hab Htu. rewrite !lerp_linear.
  assert (0 <= (b - a) * (u - t)) by (apply Qmult_le_0_compat; lra).
  setoid_replace (a + (b - a) * u) with (a + (b - a) * t + (b - a) * (u - t))
    by ring.
  lra.
Qed.

Lemma quantile_vals_interpolate p v :
  dropna v <> [] ->
  quantile_vals p v = Some (interpolate p (sort Qle_bool (dropna v))).
Proof.
  intros H. unfold quantile_vals, interpolate.
  destruct (sort Qle_bool (dropna v)) as [|a t] eqn:E; [|reflexivity].
  exfalso. apply H. apply (f_equal (@List.length Q)) in E.
  rewrite sort_length in E. now destruct (dropna v).
Qed.

Lemma quantile_vals_nan p v : dropna v = [] -> quantile_vals p v = None.
Proof. intros H. unfold quantile_vals. now rewrite H. Qed.

Section Interpolate.
Variable s : list Q.
Hypothesis s_sorted : StronglySorted (fun x y => Qle_bool x y = true) s.
Hypothesis s_nonempty : s <> [].

Let n := List.length s.
Let M := inject_Z (Z.of_nat (n - 1)).

Lemma n_pos : (0 < n)%nat.
Proof. unfold n. destruct s; [congruence | simpl; lia]. Qed.

Lemma M_nonneg : 0 <= M.
Proof.
  unfold M. change 0 with (inject_Z 0). rewrite <- Zle_Qle. lia.
Qed.

Lemma nth_le i j : (i <= j)%nat -> (j < n)%nat -> nth i s 0 <= nth j s 0.
Proof.
  intros Hij Hj. apply Qle_bool_iff.
  apply (sorted_nth_le Qle_bool Qle_bool_total); assumption.
Qed.

(** Where the virtual index [p * (n - 1)] falls. *)
Lemma floor_index p :
  0 <= p -> p <= 1 ->
  let f := Qfloor (p * M) in
  (0 <= f)%Z /\ (Z.to_nat f <= n - 1)%nat /\
  0 <= p * M - inject_Z f /\ p * M - inject_Z f <= 1.
Proof.
  intros Hp0 Hp1 f. pose proof M_nonneg as HM.
  assert (H0 : 0 <= p * M) by (apply Qmult_le_0_compat; assumption).
  assert (H1 : p * M <= M).
  { setoid_replace M with (1 * M) at 2 by ring.
    apply Qmult_le_compat_r; assumption. }
  assert (Hf0 : (0 <= f)%Z).
  { change 0%Z with (Qfloor 0). now apply Qfloor_resp_le. }
  assert (Hf1 : (f <= Z.of_nat (n - 1))%Z).
  { rewrite <- (Qfloor_Z (Z.of_nat (n - 1))). now apply Qfloor_resp_le. }
  pose proof (Qfloor_le (p * M)) as Hl.
  pose proof (Qlt_floor (p * M)) as Hu.
  fold f in Hl, Hu. rewrite inject_Z_plus in Hu.
  repeat split; try lia; try lra.
  change (inject_Z 1) with 1 in Hu. lra.
Qed.

Lemma interpolate_between p :
  0 <= p -> p <= 1 ->
  let i := Z.to_nat (Qfloor (p * M)) in
  let j := Nat.min (i + 1) (n - 1) in
  nth i s 0 <= interpolate p s /\ interpolate p s <= nth j s 0.
Proof.
  intros Hp0 Hp1 i j.
  destruct (floor_index p Hp0 Hp1) as [Hf [Hi [Hg0 Hg1]]].
  pose proof n_pos. unfold interpolate. fold n M. fold i. fold j.
  apply lerp_between; try assumption.
  apply nth_le; unfold j; lia.
Qed.

(** The quartiles come in order. *)
Lemma quartiles_ordered : interpolate 0.25 s <= interpolate 0.75 s.
Proof.
  pose proof M_nonneg as HM. pose proof n_pos as Hn.
  assert (P1 : 0 <= 0.25 /\ 0.25 <= 1) by (split; lra).
  assert (P3 : 0 <= 0.75 /\ 0.75 <= 1) by (split; lra).
  destruct (floor_index 0.25 (proj1 P1) (proj2 P1)) as [F1 [I1 [G1 G1']]].
  destruct (floor_index 0.75 (proj1 P3) (proj2 P3)) as [F3 [I3 [G3 G3']]].
  destruct (interpolate_between 0.25 (proj1 P1) (proj2 P1)) as [_ U1].
  destruct (interpolate_between 0.75 (proj1 P3) (proj2 P3)) as [L3 _].
  assert (Hh : 0.25 * M <= 0.75 * M) by lra.
  pose proof (Qfloor_resp_le _ _ Hh) as Hff.
  set (f1 := Qfloor (0.25 * M)) in *. set (f3 := Qfloor (0.75 * M)) in *.
  destruct (Z.eq_dec f1 f3) as [E|NE].
  - unfold interpolate. fold n M. fold f1 f3. rewrite <- E.
    apply lerp_mono.
    + apply nth_le; lia.
    + rewrite <- E in *. lra.
  - assert (Hlt : (Z.to_nat f1 + 1 <= Z.to_nat f3)%nat) by lia.
    apply Qle_trans with (nth (Nat.min (Z.to_nat f1 + 1) (n - 1)) s 0);
      [exact U1|].
    apply Qle_trans with (nth (Z.to_nat f3) s 0); [|exact L3].
    apply nth_le; lia.
Qed.
End Interpolate.

Lemma quartiles_of_values v :
  dropna v <> [] ->
  exists q1 q3,
    quantile_vals 0.25 v = Some q1 /\ quantile_vals 0.75 v = Some q3 /\
    q1 <= q3.
Proof.
  intros H. rewrite !quantile_vals_interpolate by exact H.
  eexists _, _. split; [reflexivity|]. split; [reflexivity|].
  apply quartiles_ordered.
  - apply sort_sorted; [apply Qle_bool_total | apply Qle_bool_trans].
  - intros E. apply (f_equal (@List.length Q)) in E.
    rewrite sort_length in E. destruct (dropna v); [congruence | discriminate].
Qed.

(** The limits exist as soon as one value is present, and then they are the
    quartiles moved outwards by 1.5 times their distance. *)
Lemma iqr_limits_defined v :
  dropna v <> [] ->
  exists q1 q3,
    quantile_vals 0.25 v = Some q1 /\ quantile_vals 0.75 v = Some q3 /\
    q1 <= q3 /\
    iqr_limits v = (Some (q1 - 1.5 * (q3 - q1)), Some (q3 + 1.5 * (q3 - q1))).
Proof.
  intros H. destruct (quartiles_of_values v H) as [q1 [q3 [E1 [E3 Hle]]]].
  exists q1, q3. repeat split; try assumption.
  unfold iqr_limits. rewrite E1, E3. reflexivity.
Qed.

Lemma iqr_limits_nan v : dropna v = [] -> iqr_limits v = (None, None).
Proof.
  intros H. unfold iqr_limits. now rewrite !quantile_vals_nan by exact H.
Qed.

Lemma iqr_limits_inv v lo hi :
  iqr_limits v = (Some lo, Some hi) ->
  exists q1 q3,
    quantile_vals 0.25 v = Some q1 /\ quantile_vals 0.75 v = Some q3 /\
    q1 <= q3 /\ lo = q1 - 1.5 * (q3 - q1) /\ hi = q3 + 1.5 * (q3 - q1).
Proof.
  intros H. destruct (dropna v) as [|a t] eqn:E.
  - rewrite iqr_limits_nan in H by exact E. discriminate.
  - assert (Hne : dropna v <> []) by (rewrite E; discriminate).
    destruct (iqr_limits_defined v Hne) as [q1 [q3 [E1 [E3 [Hle EL]]]]].
    rewrite EL in H. injection H as <- <-. exists q1, q3. tauto.
Qed.

(** What the capping lambda returns, case by case. *)
Lemma cap_value lo hi x :
  lo <= hi ->
  cap (Some lo) (Some hi) (Some x) =
  Some (if Qltb x lo then lo else if Qltb hi x then hi else x).
Proof.
  intros _. unfold cap. simpl.
  destruct (Qltb x lo); [reflexivity|]. destruct (Qltb hi x); reflexivity.
Qed.

Lemma cap_nan lower upper : cap lower upper None = None.
Proof. unfold cap. simpl. destruct lower, upper; reflexivity. Qed.

Lemma cap_within lo hi x :
  lo <= hi ->
  exists y, cap (Some lo) (Some hi) (Some x) = Some y /\ lo <= y /\ y <= hi.
Proof.
  intros H. rewrite cap_value by exact H.
  eexists. split; [reflexivity|].
  destruct (Qltb x lo) eqn:E1; [lra|]. apply Qltb_ge in E1.
  destruct (Qltb hi x) eqn:E2; [lra|]. apply Qltb_ge in E2. lra.
Qed.

Lemma cap_vals_within v lo hi :
  iqr_limits v = (Some lo, Some hi) ->
  lo <= hi /\ Forall (within lo hi) (cap_vals v).
Proof.
  intros H. destruct (iqr_limits_inv v lo hi H) as [q1 [q3 [_ [_ [Hq [-> ->]]]]]].
  assert (Hle : q1 - 1.5 * (q3 - q1) <= q3 + 1.5 * (q3 - q1)) by lra.
  split; [exact Hle|].
  unfold cap_vals. rewrite H. apply Forall_forall. intros o Ho.
  apply in_map_iff in Ho. destruct Ho as [[x|] [<- _]].
  - destruct (cap_within _ _ x Hle) as [y [-> Hy]]. exact Hy.
  - rewrite cap_nan. exact I.
Qed.

Lemma cap_vals_length v : List.length (cap_vals v) = List.length v.
Proof.
  unfold cap_vals. destruct (iqr_limits v). apply length_map.
Qed.

Lemma cap_vals_nth v i o :
  nth_error v i = Some o ->
  nth_error (cap_vals v) i =
  Some (cap (fst (iqr_limits v)) (snd (iqr_limits v)) o).
Proof.
  intros H. unfold cap_vals. destruct (iqr_limits v) as [lo hi]. simpl.
  rewrite nth_error_map, H. reflexivity.
Qed.

(** Values already inside the limits are left alone. *)
Lemma cap_vals_fixed v :
  (forall lo hi, iqr_limits v = (Some lo, Some hi) -> Forall (within lo hi) v) ->
  cap_vals v = v.
Proof.
  intros H. unfold cap_vals. destruct (dropna v) as [|a t] eqn:E.
  - rewrite iqr_limits_nan by exact E. rewrite <- (map_id v) at 2.
    apply map_ext. intros [x|]; reflexivity.
  - assert (Hne : dropna v <> []) by (rewrite E; discriminate).
    destruct (iqr_limits_defined v Hne) as [q1 [q3 [_ [_ [_ EL]]]]].
    specialize (H _ _ EL). rewrite EL. rewrite <- (map_id v) at 2.
    apply map_ext_in. intros [x|] Hx; [|apply cap_nan].
    rewrite Forall_forall in H. destruct (H _ Hx) as [H1 H2].
    unfold cap. simpl.
    apply Qltb_ge in H1, H2. now rewrite H1, H2.
Qed.

Local Close Scope Q_scope.

(** ** Mean and fill *)

Lemma fillna_vals_length {A : Type} (v : list (option A)) x :
  List.length (fillna_vals v x) = List.length v.
Proof. apply length_map. Qed.

Lemma fillna_vals_nth {A : Type} (v : list (option A)) x i o :
  nth_error v i = Some o ->
  nth_error (fillna_vals v x) i =
  Some (match o with Some _ => o | None => x end).
Proof.
  intros H. unfold fillna_vals. now rewrite nth_error_map, H.
Qed.

Lemma fillna_vals_complete {A : Type} (v : list (option A)) (a : A) :
  isnull_sum_vals (fillna_vals v (Some a)) = 0%nat.
Proof.
  unfold isnull_sum_vals, fillna_vals.
  induction v as [|[y|] t IH]; simpl; auto.
Qed.

Lemma mean_vals_defined v :
  dropna v <> [] ->
  exists m,
    mean_vals v = Some m /\
    (m * inject_Z (Z.of_nat (List.length (dropna v))) == Qsum (dropna v))%Q.
Proof.
  intros H. unfold mean_vals. destruct (dropna v) as [|a t] eqn:E;
    [congruence|].
  eexists. split; [reflexivity|].
  field. intros K. unfold Qeq in K. cbn [List.length Qnum Qden inject_Z] in K.
  lia.
Qed.

(** ** Mode of a column of strings *)

Lemma string_compare_refl s : String.compare s s = Eq.
Proof.
  induction s as [|c s IH]; simpl; [reflexivity|].
  unfold Ascii.compare. now rewrite N.compare_refl.
Qed.

Lemma string_compare_lt_trans a b c :
  String.compare a b = Lt -> String.compare b c = Lt ->
  String.compare a c = Lt.
Proof.
  revert b c. induction a as [|x a IH]; intros [|y b] [|z c]; simpl;
    try discriminate; try reflexivity.
  unfold Ascii.compare.
  destruct (N.compare_spec (N_of_ascii x) (N_of_ascii y)) as [E1|L1|G1];
    try discriminate;
    destruct (N.compare_spec (N_of_ascii y) (N_of_ascii z)) as [E2|L2|G2];
    try discriminate; intros H1 H2.
  - rewrite E1, E2, N.compare_refl. now apply (IH b c).
  - rewrite E1. now apply N.compare_lt_iff in L2 as ->.
  - rewrite <- E2. now apply N.compare_lt_iff in L1 as ->.
  - assert (L : (N_of_ascii x < N_of_ascii z)%N) by lia.
    now apply N.compare_lt_iff in L as ->.
Qed.

Lemma string_leb_trans a b c :
  String.leb a b = true -> String.leb b c = true -> String.leb a c = true.
Proof.
  unfold String.leb.
  destruct (String.compare a b) eqn:E1; try discriminate;
    destruct (String.compare b c) eqn:E2; try discriminate; intros _ _.
  - apply String.compare_eq_iff in E1, E2. subst.
    now rewrite string_compare_refl.
  - apply String.compare_eq_iff in E1. subst. now rewrite E2.
  - apply String.compare_eq_iff in E2. subst. now rewrite E1.
  - now rewrite (string_compare_lt_trans a b c E1 E2).
Qed.

Lemma string_keep_first_In (l : list string) x :
  In x (keep_first String.eqb l) <-> In x l.
Proof.
  split.
  - apply keep_first_incl; [apply string_eqb_sym' | apply string_eqb_trans].
  - intros H.
    destruct (keep_first_represents String.eqb String.eqb_refl
                string_eqb_sym' string_eqb_trans l x H) as [y [Hy E]].
    apply String.eqb_eq in E. now subst.
Qed.

Lemma max_count_upper {A : Type} (eqb : A -> A -> bool) (vals l : list A) x :
  In x l ->
  (occurrences eqb x vals
   <= fold_right Nat.max 0 (map (fun y => occurrences eqb y vals) l))%nat.
Proof.
  induction l as [|a t IH]; [intros []|].
  simpl. intros [->|H]; [lia|]. specialize (IH H). lia.
Qed.

Lemma max_count_attained {A : Type} (eqb : A -> A -> bool) (vals l : list A) :
  l <> [] ->
  exists x, In x l /\
    occurrences eqb x vals =
    fold_right Nat.max 0%nat (map (fun y => occurrences eqb y vals) l).
Proof.
  induction l as [|a t IH]; [congruence|]. intros _. simpl.
  destruct t as [|b t].
  - exists a. split; [now left | simpl; lia].
  - destruct IH as [x [Hx E]]; [discriminate|].
    destruct (Nat.max_spec (occurrences eqb a vals)
                (fold_right Nat.max 0%nat
                   (map (fun y => occurrences eqb y vals) (b :: t))))
      as [[_ M]|[_ M]]; rewrite M.
    + exists x. split; [now right | exact E].
    + exists a. split; [now left | reflexivity].
Qed.

(** [mode()[0]]: a value of maximal count, and the least of those in
    lexicographic order. *)
Lemma smode_head v m rest :
  smode v = m :: rest ->
  In (Some m) v /\
  (forall x, In (Some x) v -> (socc x (dropna v) <= socc m (dropna v))%nat) /\
  (forall x, In (Some x) v -> socc x (dropna v) = socc m (dropna v) ->
             String.leb m x = true).
Proof.
  intros H. unfold smode, mode_vals in H.
  set (vals := dropna v) in *.
  set (C := filter (fun x => Nat.eqb (occurrences String.eqb x vals)
                                     (max_count String.eqb vals))
                   (keep_first String.eqb vals)) in *.
  assert (Hin : forall x, In (Some x) v <-> In x vals).
  { intros x. unfold vals. clear. induction v as [|[y|] t IH]; simpl.
    - reflexivity.
    - rewrite <- IH. split; intros [E|E]; auto; left; congruence.
    - rewrite <- IH. split; [intros [E|E]; [discriminate | exact E] | auto]. }
  assert (HmC : In m C).
  { apply (sort_In String.leb). rewrite H. now left. }
  apply filter_In in HmC. destruct HmC as [Hm1 Hm2].
  apply Nat.eqb_eq in Hm2. apply (proj1 (string_keep_first_In _ _)) in Hm1.
  split; [exact (proj2 (Hin m) Hm1)|]. split.
  - intros x Hx. apply (proj1 (Hin x)) in Hx. unfold socc. rewrite Hm2.
    now apply max_count_upper.
  - intros x Hx E. apply (proj1 (Hin x)) in Hx.
    apply (sort_hd_least String.leb String.leb_total string_leb_trans C m).
    + now rewrite H.
    + apply filter_In. split; [now apply string_keep_first_In|].
      apply Nat.eqb_eq. unfold socc in E. now rewrite E.
Qed.

(** [mode()] is not empty when a value is present, so [[0]] does not raise. *)
Lemma smode_defined v : dropna v <> [] -> smode v <> [].
Proof.
  intros H. unfold smode, mode_vals.
  destruct (max_count_attained String.eqb (dropna v) (dropna v) H)
    as [x [Hx E]].
  intros K. apply (f_equal (@List.length string)) in K.
  rewrite sort_length in K.
  assert (Hc : In x (filter
                       (fun x => Nat.eqb (occurrences String.eqb x (dropna v))
                                         (max_count String.eqb (dropna v)))
                       (keep_first String.eqb (dropna v)))).
  { apply filter_In. split; [now apply string_keep_first_In|].
    apply Nat.eqb_eq. exact E. }
  destruct (filter _ _); [destruct Hc | discriminate].
Qed.

(** ** Reading numbers *)

(** ** Strings *)



Lemma length_append (a b : string) :
  String.length (a ++ b) = (String.length a + String.length b)%nat.
Proof. induction a as [|x a IH]; simpl; [reflexivity | now rewrite IH]. Qed.

Lemma all_chars_app p a b :
  all_chars p (a ++ b) = all_chars p a && all_chars p b.
Proof.
  induction a as [|x a IH]; simpl; [reflexivity|].
  now rewrite IH, andb_assoc.
Qed.




(** ** Blanks *)





(** ** Signs *)




(** ** Digits *)





(** ** The fraction *)




(** ** The exponent *)




(** ** The value *)


(** ** The number reader against the grammar *)





(** ** Infinity *)







(** ** Type normalisation *)


Lemma mapM_same_length {A B : Type} (f : A -> option B) l r :
  mapM f l = Some r -> List.length r = List.length l.
Proof.
  revert r; induction l as [|x t IH]; intros r; simpl.
  - intros E. now injection E as <-.
  - destruct (f x) as [y|]; [|discriminate]. simpl.
    destruct (mapM f t) as [r'|]; [|discriminate]. simpl.
    intros E. injection E as <-. simpl. now rewrite (IH r').
Qed.





Lemma float_column_len v : col_len (float_column v) = List.length v.
Proof.
  unfold float_column. destruct (mapM finite v) as [w|] eqn:E; simpl.
  - now apply mapM_same_length in E.
  - reflexivity.
Qed.

Lemma to_numeric_len e c c' :
  to_numeric e c = Some c' -> col_len c' = col_len c.
Proof.
  destruct c as [v|v|v]; simpl; try (intros E; now injection E as <-).
  destruct (mapM (convert e) v) as [w|] eqn:E; [|discriminate].
  simpl. intros K. injection K as <-.
  rewrite float_column_len. now apply mapM_same_length in E.
Qed.

(** ** Frames *)


Lemma getitem_put_col_other d c v c' :
  c' <> c -> getitem (put_col d c v) c' = getitem d c'.
Proof.
  intros H. induction d as [|[n w] d IH]; simpl.
  - apply String.eqb_neq in H. rewrite String.eqb_sym in H. now rewrite H.
  - destruct (String.eqb n c) eqn:E; simpl.
    + apply String.eqb_eq in E. subst n.
      assert (E' : String.eqb c c' = false)
        by (apply String.eqb_neq; congruence).
      now rewrite E'.
    + now rewrite IH.
Qed.




(** ** The store *)

Lemma lookup_bind_same e x r : lookup (bind_var e x r) x = Some r.
Proof.
  induction e as [|[y q] e IH]; simpl.
  - now rewrite String.eqb_refl.
  - destruct (String.eqb y x) eqn:E; simpl; now rewrite E.
Qed.

Lemma lookup_bind_other e x r z :
  z <> x -> lookup (bind_var e x r) z = lookup e z.
Proof.
  intros H. induction e as [|[y q] e IH]; simpl.
  - apply String.eqb_neq in H. rewrite String.eqb_sym in H. now rewrite H.
  - destruct (String.eqb y x) eqn:E; simpl.
    + apply String.eqb_eq in E. subst y.
      assert (E' : String.eqb x z = false)
        by (apply String.eqb_neq; congruence).
      now rewrite E'.
    + now rewrite IH.
Qed.


Lemma nth_error_update_other {A : Type} (l : list A) i j x :
  i <> j -> nth_error (update l i x) j = nth_error l j.
Proof.
  revert i j; induction l as [|a t IH]; intros [|i] [|j] H; simpl;
    try reflexivity; try congruence.
  apply IH. congruence.
Qed.


Lemma rebind_preserves_df x y f : x <> "df" -> preserves_df (rebind x y f).
Proof.
  intros Hx d0 s s' [r [Hr [Hd Ho]]] H. unfold rebind in H.
  destruct (frame s y) as [d|]; [|discriminate]. simpl in H.
  destruct (f d) as [d'|]; [|discriminate]. simpl in H.
  injection H as <-. exists r. simpl.
  assert (Hlt : (r < List.length (heap s))%nat)
    by (apply nth_error_Some; congruence).
  split; [rewrite lookup_bind_other; [exact Hr | congruence]|].
  split; [rewrite nth_error_app1; assumption|].
  intros z r' Hz Hl.
  destruct (String.eqb_spec z x) as [->|Hzx].
  - rewrite lookup_bind_same in Hl. injection Hl as <-. lia.
  - rewrite lookup_bind_other in Hl by exact Hzx. now apply (Ho z).
Qed.

Lemma setitem_preserves_df x c f : x <> "df" -> preserves_df (setitem x c f).
Proof.
  intros Hx d0 s s' [r [Hr [Hd Ho]]] H. unfold setitem in H.
  destruct (lookup (env s) x) as [rx|] eqn:Ex; [|discriminate]. simpl in H.
  destruct (nth_error (heap s) rx) as [d|]; [|discriminate]. simpl in H.
  destruct (f d) as [v|]; [|discriminate]. simpl in H.
  destruct (setitem_df d c v) as [d'|]; [|discriminate]. simpl in H.
  injection H as <-. exists r. simpl.
  split; [exact Hr|]. split; [|exact Ho].
  rewrite nth_error_update_other; [exact Hd|]. now apply (Ho x).
Qed.

Lemma run_preserves_df p :
  Forall preserves_df p ->
  forall d0 s s', df_untouched d0 s -> run p s = Some s' -> df_untouched d0 s'.
Proof.
  induction 1 as [|c p Hc Hp IH]; intros d0 s s' Hs Hr; simpl in Hr.
  - now injection Hr as <-.
  - destruct (c s) as [s1|] eqn:E; [|discriminate]. simpl in Hr.
    apply (IH d0 s1 s'); [|exact Hr]. now apply (Hc d0 s).
Qed.

Lemma run_app p q s :
  run (p ++ q) s = (s' <- run p s ;; run q s').
Proof.
  revert s; induction p as [|c p IH]; intros s; simpl; [reflexivity|].
  destruct (c s) as [s1|]; simpl; [apply IH | reflexivity].
Qed.

Lemma shown_preserves_df {A : Type} (e : Store -> option A) :
  preserves_df (shown e).
Proof.
  intros d0 s s' H E. unfold shown in E.
  destruct (e s); [|discriminate]. simpl in E. now injection E as <-.
Qed.

Lemma stages_preserve_df : Forall preserves_df stages.
Proof.
  unfold stages, treat_types, treat_duplicates, treat_missing, treat_columns,
    treat_purchase_outliers, treat_age_outliers, encode.
  simpl.
  repeat (constructor;
          [first [apply shown_preserves_df
                 | apply rebind_preserves_df; discriminate
                 | apply setitem_preserves_df; discriminate]|]).
  constructor.
Qed.

(** After the three lines of the set-up, [df] holds the concatenated frame
    and [df_clean] an object of its own. *)
Lemma setup_state data s :
  run (setup data) empty_store = Some s ->
  exists t d0,
    iloc data [4; 5; 6]%nat = Some t /\ pd_concat data t = Some d0 /\
    df_untouched d0 s /\ frame s "df_clean" = Some d0.
Proof.
  unfold setup, run, create, rebind, frame, empty_store. simpl.
  destruct (iloc data [4; 5; 6]%nat) as [t|]; [|discriminate]. simpl.
  destruct (pd_concat data t) as [d0|] eqn:Ec; [|discriminate]. simpl.
  intros H. injection H as <-. exists t, d0.
  split; [reflexivity|]. split; [exact Ec|]. split; [|reflexivity].
  exists 1%nat. split; [reflexivity|]. split; [reflexivity|].
  intros x r' Hx. cbn [env lookup].
  destruct (String.eqb_spec "df" x) as [E|_]; [congruence|].
  destruct (String.eqb "df_clean" x); intros H; [|discriminate].
  injection H as <-. discriminate.
Qed.

(** ** Encoders *)

Lemma index_of_nth x l i :
  index_of x l = Some i ->
  nth_error l i = Some x /\
  forall j, (j < i)%nat -> nth_error l j <> Some x.
Proof.
  revert i; induction l as [|y t IH]; intros i; simpl; [discriminate|].
  destruct (String.eqb_spec x y) as [->|Hxy].
  - intros H. injection H as <-. split; [reflexivity | intros j Hj; lia].
  - destruct (index_of x t) as [k|]; [|discriminate]. simpl.
    intros H. injection H as <-. destruct (IH k eq_refl) as [H1 H2].
    split; [exact H1|]. intros [|j] Hj; simpl.
    + congruence.
    + apply H2. lia.
Qed.

Lemma index_of_In x l : In x l -> exists i, index_of x l = Some i.
Proof.
  induction l as [|y t IH]; [intros []|]. simpl. intros H.
  destruct (String.eqb_spec x y) as [->|Hxy]; [now exists 0%nat|].
  destruct H as [->|H]; [congruence|].
  destruct (IH H) as [i ->]. now exists (S i).
Qed.

Lemma mapM_nth {A B : Type} (f : A -> option B) l r :
  mapM f l = Some r ->
  List.length r = List.length l /\
  forall i a, nth_error l i = Some a ->
    exists b, f a = Some b /\ nth_error r i = Some b.
Proof.
  revert r; induction l as [|x t IH]; intros r; simpl.
  - intros H. injection H as <-. split; [reflexivity|].
    intros [|i] a; discriminate.
  - destruct (f x) as [y|] eqn:Ey; [|discriminate]. simpl.
    destruct (mapM f t) as [r'|]; [|discriminate]. simpl.
    intros H. injection H as <-. destruct (IH r' eq_refl) as [Hl Hn].
    split; [simpl; now rewrite Hl|].
    intros [|i] a; simpl.
    + intros E. injection E as <-. now exists y.
    + apply Hn.
Qed.

Lemma mapM_total {A B : Type} (f : A -> option B) l :
  (forall a, In a l -> f a <> None) -> exists r, mapM f l = Some r.
Proof.
  induction l as [|x t IH]; intros H; simpl; [now eexists|].
  destruct (f x) as [y|] eqn:Ey; [|now destruct (H x (or_introl eq_refl))].
  destruct IH as [r ->]; [intros a Ha; apply H; now right|].
  simpl. now eexists.
Qed.

Lemma code_defined cats v :
  (forall o, In o v -> exists s, o = Some s /\ In s cats) ->
  exists w, mapM (code cats) v = Some w.
Proof.
  intros H. apply mapM_total. intros o Ho.
  destruct (H o Ho) as [s [-> Hs]]. simpl.
  destruct (index_of_In s cats Hs) as [i ->]. discriminate.
Qed.

(** The code of a value is the position at which it stands in the list of
    categories. *)
Lemma code_position cats v w :
  mapM (code cats) v = Some w ->
  List.length w = List.length v /\
  forall i o, nth_error v i = Some o ->
    exists s k,
      o = Some s /\
      nth_error w i = Some (Some (inject_Z (Z.of_nat k))) /\
      nth_error cats k = Some s /\
      forall j, (j < k)%nat -> nth_error cats j <> Some s.
Proof.
  intros H. destruct (mapM_nth _ _ _ H) as [Hl Hn]. split; [exact Hl|].
  intros i o Ho. destruct (Hn i o Ho) as [b [Hb Hw]].
  destruct o as [s|]; [|discriminate]. simpl in Hb.
  destruct (index_of s cats) as [k|] eqn:Ek; [|discriminate].
  injection Hb as <-. destruct (index_of_nth _ _ _ Ek) as [H1 H2].
  exists s, k. auto.
Qed.

Lemma insert_perm {A : Type} (leb : A -> A -> bool) x l :
  Permutation (insert leb x l) (x :: l).
Proof.
  induction l as [|a t IH]; simpl; [reflexivity|].
  destruct (leb x a); [reflexivity|].
  rewrite IH. apply perm_swap.
Qed.

Lemma sort_perm {A : Type} (leb : A -> A -> bool) l :
  Permutation (sort leb l) l.
Proof.
  induction l as [|a t IH]; simpl; [reflexivity|].
  rewrite insert_perm. now constructor.
Qed.

Lemma distinct_NoDup (l : list string) :
  ForallOrdPairs (fun a b => String.eqb a b = false) l -> NoDup l.
Proof.
  induction 1 as [|a t Ha Ht IH]; constructor; [|exact IH].
  intros Hin. rewrite Forall_forall in Ha. specialize (Ha a Hin).
  now rewrite String.eqb_refl in Ha.
Qed.

Lemma dropna_In {A : Type} (v : list (option A)) x :
  In x (dropna v) <-> In (Some x) v.
Proof.
  induction v as [|[y|] t IH]; simpl.
  - reflexivity.
  - rewrite IH. split; intros [E|E]; auto; left; congruence.
  - rewrite IH. split; [auto | intros [E|E]; [discriminate | exact E]].
Qed.

(** The fitted classes: each present value once, in strictly ascending
    lexicographic order. *)
Lemma classes_spec v :
  (forall x, In x (classes v) <-> In (Some x) v) /\
  StronglySorted (fun a b => String.ltb a b = true) (classes v).
Proof.
  split.
  - intros x. unfold classes.
    rewrite (sort_In String.leb), string_keep_first_In. apply dropna_In.
  - unfold classes. set (K := keep_first String.eqb (dropna v)).
    assert (Hnd : NoDup (sort String.leb K)).
    { apply Permutation_NoDup with K; [symmetry; apply sort_perm|].
      apply distinct_NoDup.
      apply keep_first_distinct;
        [apply string_eqb_sym' | apply string_eqb_trans]. }
    pose proof (sort_sorted String.leb String.leb_total string_leb_trans K)
      as Hs.
    induction Hs as [|a t Ht IH Ha]; constructor.
    + apply IH. now inversion Hnd.
    + inversion Hnd as [|? ? Hna _]; subst.
      rewrite Forall_forall in *. intros y Hy. specialize (Ha y Hy).
      unfold String.leb in Ha. unfold String.ltb.
      destruct (String.compare a y) eqn:E; try reflexivity; try discriminate.
      apply String.compare_eq_iff in E. subst. contradiction.
Qed.

Lemma classes_length v :
  List.length (classes v) = nunique (ObjCol v).
Proof. unfold classes. simpl. unfold nunique_vals. apply sort_length. Qed.

(** One-hot encoding with the first category dropped: [k - 1] indicator
    columns for [k] distinct values, one per remaining class. *)
Lemma get_dummies_drop_first v prefix :
  exists e,
    get_dummies (ObjCol v) prefix true = Some e /\
    List.length e = (nunique (ObjCol v) - 1)%nat /\
    map fst e = map (fun k => (prefix ++ "_" ++ k)%string) (tl (classes v)) /\
    forall k, In k (tl (classes v)) ->
      In ((prefix ++ "_" ++ k)%string, indicator k v) e.
Proof.
  eexists. split; [reflexivity|]. split; [|split].
  - rewrite length_map, <- classes_length. destruct (classes v); simpl; lia.
  - rewrite map_map. reflexivity.
  - intros k Hk. apply in_map_iff. now exists k.
Qed.

Lemma indicator_nth k v i o :
  nth_error v i = Some o ->
  exists w,
    indicator k v = NumCol w /\
    nth_error w i = Some (Some (if opt_eqb String.eqb o (Some k)
                                then 1%Q else 0%Q)).
Proof.
  intros H. eexists. split; [reflexivity|].
  now rewrite nth_error_map, H.
Qed.

(** ** Duplicate removal on frames *)

Lemma rows_length d : List.length (rows d) = nrows d.
Proof. unfold rows. now rewrite length_map, length_seq. Qed.

Lemma select_col_len m c :
  List.length m = col_len c ->
  col_len (select_col m c) = List.length (filter (fun b => b) m).
Proof. destruct c; simpl; apply select_length. Qed.

Lemma nrows_drop_duplicates d :
  nrows (drop_duplicates d) = List.length (keep_first row_eqb (rows d)).
Proof.
  unfold drop_duplicates, keep_first.
  set (m := map negb (duplicated row_eqb (rows d))).
  assert (Hm : List.length m = nrows d).
  { unfold m, duplicated.
    now rewrite length_map, duplicated_from_length, rows_length. }
  rewrite select_length by now rewrite rows_length.
  destruct d as [|[n c] d']; simpl.
  - now destruct m.
  - apply select_col_len. exact Hm.
Qed.

Lemma occurrences_pos {A : Type} (eqb : A -> A -> bool) x l :
  (forall a, eqb a a = true) -> In x l -> (1 <= occurrences eqb x l)%nat.
Proof.
  intros Hr. unfold occurrences. induction l as [|a t IH]; [intros []|].
  simpl. intros [->|H].
  - rewrite Hr. simpl. lia.
  - specialize (IH H). destruct (eqb x a); simpl; lia.
Qed.

Lemma list_sum_pred {A : Type} (f : A -> nat) K :
  (forall y, In y K -> (1 <= f y)%nat) ->
  (List.length K + list_sum (map (fun y => f y - 1) K)
   = list_sum (map f K))%nat.
Proof.
  induction K as [|k K IH]; intros H; simpl; [reflexivity|].
  pose proof (H k (or_introl eq_refl)).
  assert (IH' := IH (fun y Hy => H y (or_intror Hy))). lia.
Qed.

(** ** Outlier capping *)

Local Open Scope Q_scope.

Lemma interpolate_linear p s :
  let n := List.length s in
  let h := p * inject_Z (Z.of_nat (n - 1)) in
  let i := Z.to_nat (Qfloor h) in
  let j := Nat.min (i + 1) (n - 1) in
  interpolate p s
  == nth i s 0 + (nth j s 0 - nth i s 0) * (h - inject_Z (Qfloor h)).
Proof. intros n h i j. unfold interpolate. apply lerp_linear. Qed.

(** C4. Each capping pass takes Q1 and Q3 of the current values by linear
    interpolation, puts the limits 1.5 times their distance outside them,
    moves every value below the lower limit up to it and every value above
    the upper limit down to it, and leaves the number of rows alone, so
    that afterwards every value lies between the limits.  The script caps
    the purchase amount first and then the age, each from the frame as it
    stands at that point. *)
Theorem iqr_capping_bounds :
  (forall v lo hi,
      iqr_limits v = (Some lo, Some hi) ->
      exists q1 q3,
        quantile_vals 0.25 v = Some q1 /\
        quantile_vals 0.75 v = Some q3 /\
        q1 = interpolate 0.25 (sort Qle_bool (dropna v)) /\
        q3 = interpolate 0.75 (sort Qle_bool (dropna v)) /\
        lo = q1 - 1.5 * (q3 - q1) /\
        hi = q3 + 1.5 * (q3 - q1) /\
        lo <= hi /\
        List.length (cap_vals v) = List.length v /\
        (forall i x,
            nth_error v i = Some (Some x) ->
            nth_error (cap_vals v) i =
            Some (Some (if Qltb x lo then lo
                        else if Qltb hi x then hi else x))) /\
        (forall i, nth_error v i = Some None ->
                   nth_error (cap_vals v) i = Some None) /\
        Forall (within lo hi) (cap_vals v)) /\
  (forall v, dropna v <> [] ->
             exists lo hi, iqr_limits v = (Some lo, Some hi)) /\
  (forall p s,
      let n := List.length s in
      let h := p * inject_Z (Z.of_nat (n - 1)) in
      let i := Z.to_nat (Qfloor h) in
      let j := Nat.min (i + 1) (n - 1) in
      interpolate p s
      == nth i s 0 + (nth j s 0 - nth i s 0) * (h - inject_Z (Qfloor h))) /\
  (forall c d v,
      getitem d c = Some (NumCol v) ->
      capped c d = Some (NumCol (cap_vals v))) /\
  column_of at_purchase_capped "df_clean" "purchase_amount"
  = Some (NumCol (cap_vals
                    (values_of
                       (column_of at_pruned "df_clean" "purchase_amount")))) /\
  column_of at_purchase_capped "df_clean" "age"
  = column_of at_pruned "df_clean" "age" /\
  column_of at_age_capped "df_clean" "age"
  = Some (NumCol (cap_vals
                    (values_of
                       (column_of at_purchase_capped "df_clean" "age")))) /\
  column_of at_age_capped "df_clean" "purchase_amount"
  = column_of at_purchase_capped "df_clean" "purchase_amount" /\
  age_limits
  = iqr_limits (values_of (column_of at_purchase_capped "df_clean" "age")) /\
  same_values [fst age_limits; snd age_limits]
              [Some 16.625; Some 43.625] = true /\
  same_values
    [fst (iqr_limits (values_of (column_of at_typed "df_clean" "age")));
     snd (iqr_limits (values_of (column_of at_typed "df_clean" "age")))]
    [Some 18.5; Some 38.5] = true /\
  option_map nrows (frame_of at_pruned "df_clean") = Some 20%nat /\
  option_map nrows (frame_of at_age_capped "df_clean") = Some 20%nat.
Proof.
  split.
  { intros v lo hi H.
    destruct (cap_vals_within v lo hi H) as [Hle Hw].
    destruct (iqr_limits_inv v lo hi H) as [q1 [q3 [E1 [E3 [_ [Elo Ehi]]]]]].
    assert (Hne : dropna v <> []).
    { intros K. rewrite (iqr_limits_nan v K) in H. discriminate. }
    exists q1, q3.
    rewrite (quantile_vals_interpolate 0.25 v Hne) in E1.
    rewrite (quantile_vals_interpolate 0.75 v Hne) in E3.
    injection E1 as E1. injection E3 as E3.
    rewrite !quantile_vals_interpolate by exact Hne.
    split; [now rewrite E1|]. split; [now rewrite E3|].
    split; [now symmetry|]. split; [now symmetry|].
    split; [exact Elo|]. split; [exact Ehi|]. split; [exact Hle|].
    split; [apply cap_vals_length|].
    split; [|split; [|exact Hw]].
    - intros i x Hx. rewrite (cap_vals_nth v i _ Hx), H. simpl.
      now rewrite cap_value.
    - intros i Hx. rewrite (cap_vals_nth v i _ Hx). now rewrite cap_nan. }
  split.
  { intros v H. destruct (iqr_limits_defined v H) as [q1 [q3 [_ [_ [_ E]]]]].
    eexists. eexists. exact E. }
  split; [exact interpolate_linear|].
  split.
  { intros c d v H. unfold capped. now rewrite H. }
  repeat split; vm_compute; reflexivity.
Qed.

Lemma iqr_capping_bounds_witness :
  exists lo hi,
    iqr_limits [Some 1; Some 2; None; Some 3; Some 4; Some 100]
    = (Some lo, Some hi) /\
    Forall (within lo hi)
           (cap_vals [Some 1; Some 2; None; Some 3; Some 4; Some 100]).
Proof.
  eexists. eexists. split; [vm_compute; reflexivity|].
  destruct (proj1 iqr_capping_bounds
              [Some 1; Some 2; None; Some 3; Some 4; Some 100] _ _ eq_refl)
    as [q1 [q3 H]].
  apply H.
Defined.

(** C8, counterexample.  On the values 0, 100, 100, 100 the first pass
    lifts 0 to 37.5; the quartiles of the result have moved, and the second
    pass lifts 37.5 to 60.9375. *)
Lemma capping_twice_differs :
  same_values
    (cap_vals (cap_vals [Some 0; Some 100; Some 100; Some 100]))
    (cap_vals [Some 0; Some 100; Some 100; Some 100]) = false
  /\ same_values (cap_vals [Some 0; Some 100; Some 100; Some 100])
                 [Some 37.5; Some 100; Some 100; Some 100] = true
  /\ same_values (cap_vals (cap_vals [Some 0; Some 100; Some 100; Some 100]))
                 [Some 60.9375; Some 100; Some 100; Some 100] = true.
Proof. repeat split; vm_compute; reflexivity. Qed.

(** C8, as amended.  A pass changes nothing on values that already lie
    inside the limits computed from them, so from such a state on repeating
    the pass changes nothing; the two fields of the script are in that state
    after their one pass. *)
Theorem capping_stable_inside_limits :
  (forall v,
      (forall lo hi, iqr_limits v = (Some lo, Some hi) ->
                     Forall (within lo hi) v) ->
      cap_vals v = v /\ cap_vals (cap_vals v) = cap_vals v) /\
  same_values
    (cap_vals (values_of (column_of at_end "df_clean" "purchase_amount")))
    (values_of (column_of at_end "df_clean" "purchase_amount")) = true /\
  same_values
    (cap_vals (values_of (column_of at_end "df_clean" "age")))
    (values_of (column_of at_end "df_clean" "age")) = true.
Proof.
  split.
  - intros v H. pose proof (cap_vals_fixed v H) as E.
    split; [exact E | now rewrite !E].
  - split; vm_compute; reflexivity.
Qed.

Lemma capping_stable_inside_limits_witness :
  cap_vals [Some 1; Some 2; Some 3; Some 4; Some 5]
  = [Some 1; Some 2; Some 3; Some 4; Some 5].
Proof.
  apply (proj1 capping_stable_inside_limits).
  intros lo hi H. vm_compute in H. injection H as <- <-.
  repeat constructor; vm_compute; discriminate.
Defined.

Local Close Scope Q_scope.

(** ** Imputation *)

(** C5. The scalar put in place of the missing entries of a numeric field
    is the arithmetic mean of its non-missing values, taken on the frame as
    it stands after duplicate removal and before capping; after the stage
    the four treated fields have no missing entry. *)
Theorem mean_imputation :
  (forall v,
      dropna v <> [] ->
      exists m,
        mean_vals v = Some m /\
        (m * inject_Z (Z.of_nat (List.length (dropna v)))
         == Qsum (dropna v))%Q /\
        fillna (NumCol v) (CNum (mean_vals v))
        = Some (NumCol (fillna_vals v (Some m))) /\
        List.length (fillna_vals v (Some m)) = List.length v /\
        (forall i x, nth_error v i = Some (Some x) ->
                     nth_error (fillna_vals v (Some m)) i = Some (Some x)) /\
        (forall i, nth_error v i = Some None ->
                   nth_error (fillna_vals v (Some m)) i = Some (Some m)) /\
        isnull_sum (NumCol (fillna_vals v (Some m))) = 0%nat) /\
  (forall c d v,
      getitem d c = Some (NumCol v) ->
      fill_mean c d = Some (NumCol (fillna_vals v (mean_vals v)))) /\
  column_of at_age_filled "df_clean" "age"
  = Some (NumCol (fillna_vals
                    (values_of (column_of at_deduplicated "df_clean" "age"))
                    age_mean)) /\
  column_of at_purchase_filled "df_clean" "purchase_amount"
  = Some (NumCol (fillna_vals
                    (values_of
                       (column_of at_city_filled "df_clean" "purchase_amount"))
                    purchase_mean)) /\
  same_values [age_mean; purchase_mean] [Some (643 # 18); Some 7042.6]%Q
  = true /\
  same_values
    [mean_vals (values_of (column_of at_typed "df_clean" "age"));
     mean_vals (values_of (column_of at_age_capped "df_clean" "age"))]
    [Some (242 # 7); Some (43781 # 1440)]%Q = true /\
  option_map isnull_sum (column_of at_imputed "df_clean" "age")
  = Some 0%nat /\
  option_map isnull_sum (column_of at_imputed "df_clean" "city")
  = Some 0%nat /\
  option_map isnull_sum (column_of at_imputed "df_clean" "purchase_amount")
  = Some 0%nat /\
  option_map isnull_sum (column_of at_imputed "df_clean" "shirt_size")
  = Some 0%nat.
Proof.
  split.
  { intros v H. destruct (mean_vals_defined v H) as [m [Em Hm]].
    exists m. rewrite Em. split; [reflexivity|]. split; [exact Hm|].
    split; [reflexivity|]. split; [apply fillna_vals_length|].
    split; [|split].
    - intros i x Hx. now rewrite (fillna_vals_nth v (Some m) i _ Hx).
    - intros i Hx. now rewrite (fillna_vals_nth v (Some m) i _ Hx).
    - apply fillna_vals_complete. }
  split.
  { intros c d v H. unfold fill_mean. now rewrite H. }
  repeat split; vm_compute; reflexivity.
Qed.

Lemma mean_imputation_witness :
  exists m,
    mean_vals [Some 1; None; Some 2]%Q = Some m /\
    fillna (NumCol [Some 1; None; Some 2]%Q)
           (CNum (mean_vals [Some 1; None; Some 2]%Q))
    = Some (NumCol (fillna_vals [Some 1; None; Some 2]%Q (Some m))).
Proof.
  destruct (proj1 mean_imputation [Some 1; None; Some 2]%Q) as [m H].
  - simpl. discriminate.
  - exists m. split; apply H.
Defined.

(** C3, counterexample.  In the shirt sizes of the script Small and Medium
    both occur five times; Small comes first in row order, and the value
    the script fills in is Medium. *)
Lemma mode_is_not_first_encountered :
  first_encountered_mode
    (strings_of (column_of at_purchase_filled "df_clean" "shirt_size"))
  = Some "Small" /\
  size_mode = Some (CObj (Some "Medium")) /\
  size_mode
  <> option_map (fun m => CObj (Some m))
       (first_encountered_mode
          (strings_of (column_of at_purchase_filled "df_clean" "shirt_size")))
  /\
  socc "Small"
       (dropna (strings_of
                  (column_of at_purchase_filled "df_clean" "shirt_size")))
  = 5%nat /\
  socc "Medium"
       (dropna (strings_of
                  (column_of at_purchase_filled "df_clean" "shirt_size")))
  = 5%nat.
Proof.
  split; [vm_compute; reflexivity|]. split; [vm_compute; reflexivity|].
  split; [vm_compute; discriminate|].
  split; vm_compute; reflexivity.
Qed.

(** C3, as amended.  The scalar put in place of the missing entries of a
    categorical field is a most frequent non-missing value of the field,
    and among the values of maximal count it is the least in ascending
    lexicographic order. *)
Theorem mode_imputation :
  (forall v,
      dropna v <> [] ->
      exists m,
        item0 (mode (ObjCol v)) = Some (CObj (Some m)) /\
        In (Some m) v /\
        (forall x, In (Some x) v ->
                   (socc x (dropna v) <= socc m (dropna v))%nat) /\
        (forall x, In (Some x) v ->
                   socc x (dropna v) = socc m (dropna v) ->
                   String.leb m x = true) /\
        fillna (ObjCol v) (CObj (Some m))
        = Some (ObjCol (fillna_vals v (Some m))) /\
        (forall i, nth_error v i = Some None ->
                   nth_error (fillna_vals v (Some m)) i = Some (Some m)) /\
        (forall i x, nth_error v i = Some (Some x) ->
                     nth_error (fillna_vals v (Some m)) i = Some (Some x))) /\
  (forall c d v,
      getitem d c = Some (ObjCol v) ->
      fill_mode c d = (m <- item0 (mode (ObjCol v)) ;; fillna (ObjCol v) m)) /\
  city_mode = Some (CObj (Some "Bangalore")) /\
  size_mode = Some (CObj (Some "Medium")) /\
  column_of at_city_filled "df_clean" "city"
  = Some (ObjCol (fillna_vals
                    (strings_of (column_of at_age_filled "df_clean" "city"))
                    (Some "Bangalore"))) /\
  column_of at_imputed "df_clean" "shirt_size"
  = Some (ObjCol (fillna_vals
                    (strings_of
                       (column_of at_purchase_filled "df_clean" "shirt_size"))
                    (Some "Medium"))).
Proof.
  split.
  { intros v H. pose proof (smode_defined v H) as Hne.
    destruct (smode v) as [|m rest] eqn:E; [congruence|].
    destruct (smode_head v m rest E) as [H1 [H2 H3]].
    exists m. split.
    - simpl. fold smode. fold (smode v). now rewrite E.
    - split; [exact H1|]. split; [exact H2|]. split; [exact H3|].
      split; [reflexivity|]. split.
      + intros i Hx. now rewrite (fillna_vals_nth v (Some m) i _ Hx).
      + intros i x Hx. now rewrite (fillna_vals_nth v (Some m) i _ Hx). }
  split.
  { intros c d v H. unfold fill_mode. now rewrite H. }
  repeat split; vm_compute; reflexivity.
Qed.

Lemma mode_imputation_witness :
  exists m,
    item0 (mode (ObjCol [Some "b"; None; Some "a"; Some "b"; Some "a"]))
    = Some (CObj (Some m)) /\
    String.leb m "b" = true.
Proof.
  destruct (proj1 mode_imputation
              [Some "b"; None; Some "a"; Some "b"; Some "a"])
    as [m [H1 [_ [_ [H4 _]]]]].
  - simpl. discriminate.
  - exists m. split; [exact H1|].
    apply H4; [simpl; auto | vm_compute in H1].
    injection H1 as <-. vm_compute. reflexivity.
Defined.

(** ** The type stage *)










(** ** Column pruning *)

Lemma getitem_drop d names d' c :
  drop d names = Some d' ->
  getitem d' c = if existsb (String.eqb c) names then None else getitem d c.
Proof.
  unfold drop. destruct (forallb _ names); [|discriminate].
  intros H. injection H as <-.
  induction d as [|[n w] d IH]; simpl.
  - now destruct (existsb (String.eqb c) names).
  - destruct (String.eqb_spec n c) as [->|Hn].
    + destruct (existsb (String.eqb c) names) eqn:E; simpl.
      * exact IH.
      * now rewrite String.eqb_refl.
    + destruct (existsb (String.eqb n) names); simpl.
      * exact IH.
      * apply String.eqb_neq in Hn. now rewrite Hn.
Qed.

Lemma columns_drop d names d' :
  drop d names = Some d' ->
  columns d' =
  filter (fun n => negb (existsb (String.eqb n) names)) (columns d).
Proof.
  unfold drop. destruct (forallb _ names); [|discriminate].
  intros H. injection H as <-. unfold columns.
  induction d as [|[n w] d IH]; simpl; [reflexivity|].
  destruct (existsb (String.eqb n) names); simpl; now rewrite IH.
Qed.

Lemma drop_defined d names :
  (forall n, In n names -> In n (columns d)) ->
  exists d', drop d names = Some d'.
Proof.
  intros H. unfold drop.
  assert (E : forallb (fun n => existsb (String.eqb n) (columns d)) names
              = true).
  { apply forallb_forall. intros n Hn. apply existsb_exists.
    exists n. split; [now apply H | apply String.eqb_refl]. }
  rewrite E. now eexists.
Qed.

(** C2, counterexample.  The identifier field has twenty distinct values
    in twenty rows and is still in the output. *)
Lemma pruning_keeps_identifier :
  exists d col,
    frame_of at_end "df_clean" = Some d /\
    getitem d "customer_id" = Some col /\
    nunique col = 20%nat /\ nrows d = 20%nat /\
    ~ (forall c x, getitem d c = Some x ->
                   (1 < nunique x)%nat /\ (nunique x < nrows d)%nat).
Proof.
  eexists. eexists. split; [vm_compute; reflexivity|].
  split; [vm_compute; reflexivity|].
  split; [vm_compute; reflexivity|].
  split; [vm_compute; reflexivity|].
  intros H. specialize (H "customer_id" _ eq_refl).
  destruct H as [_ H]. vm_compute in H. lia.
Qed.

(** C2, as amended.  The pruning stage removes the two fields it names,
    country (one value throughout) and pan_card (all values distinct), and
    keeps every other field as it is; in the output every field but the
    identifier has more than one and fewer than row-count distinct values,
    and the identifier, all distinct, is kept. *)
Theorem pruning_drops_named_columns :
  (forall d,
      In "country" (columns d) -> In "pan_card" (columns d) ->
      exists d',
        drop d columns_to_drop = Some d' /\
        columns d' =
        filter (fun n => negb (existsb (String.eqb n) columns_to_drop))
               (columns d) /\
        getitem d' "country" = None /\
        getitem d' "pan_card" = None /\
        forall c, c <> "country" -> c <> "pan_card" ->
                  getitem d' c = getitem d c) /\
  option_map nunique (column_of at_imputed "df_clean" "country")
  = Some 1%nat /\
  option_map nunique (column_of at_imputed "df_clean" "pan_card")
  = Some 20%nat /\
  option_map nrows (frame_of at_imputed "df_clean") = Some 20%nat /\
  option_map columns (frame_of at_pruned "df_clean")
  = Some ["customer_id"; "name"; "age"; "city"; "purchase_amount";
          "product_category"; "shirt_size"; "grade"] /\
  option_map (fun d => (nrows d, map (fun p => (fst p, nunique (snd p))) d))
             (frame_of at_end "df_clean")
  = Some (20%nat,
          [("customer_id", 20%nat); ("name", 17%nat); ("age", 15%nat);
           ("city", 6%nat); ("purchase_amount", 14%nat);
           ("product_category", 3%nat); ("shirt_size", 4%nat);
           ("grade", 3%nat); ("size_encoded", 4%nat);
           ("grade_encoded", 3%nat); ("category_encoded", 3%nat)]).
Proof.
  split.
  { intros d H1 H2.
    destruct (drop_defined d columns_to_drop) as [d' E].
    { intros n [<-|[<-|[]]]; assumption. }
    exists d'. split; [exact E|].
    split; [now apply columns_drop|].
    split; [now rewrite (getitem_drop d columns_to_drop d' _ E)|].
    split; [now rewrite (getitem_drop d columns_to_drop d' _ E)|].
    intros c Hc1 Hc2. rewrite (getitem_drop d columns_to_drop d' _ E).
    unfold columns_to_drop. cbn [existsb].
    apply String.eqb_neq in Hc1, Hc2. now rewrite Hc1, Hc2. }
  repeat split; vm_compute; reflexivity.
Qed.

Lemma pruning_drops_named_columns_witness :
  exists d',
    drop [("country", strs ["India"]); ("pan_card", strs ["X"]);
          ("grade", strs ["A"])] columns_to_drop = Some d' /\
    getitem d' "country" = None.
Proof.
  destruct (proj1 pruning_drops_named_columns
              [("country", strs ["India"]); ("pan_card", strs ["X"]);
               ("grade", strs ["A"])]) as [d' H].
  - simpl. auto.
  - simpl. auto.
  - exists d'. split; apply H.
Defined.

(** ** The encoding stage *)

(** C9, counterexample.  The five indicator fields of the one-hot encoding
    are columns of the separate frame [city_encoded]; none of them is a
    field of the dataset when the script ends. *)
Lemma one_hot_fields_outside_dataset :
  exists d e,
    frame_of at_end "df_clean" = Some d /\
    frame_of at_end "city_encoded" = Some e /\
    columns e = ["city_Chennai"; "city_Delhi"; "city_Hyderabad";
                 "city_Mumbai"; "city_Pune"] /\
    columns d = ["customer_id"; "name"; "age"; "city"; "purchase_amount";
                 "product_category"; "shirt_size"; "grade"; "size_encoded";
                 "grade_encoded"; "category_encoded"] /\
    forall k, In k (columns e) -> getitem d k = None.
Proof.
  eexists. eexists. split; [vm_compute; reflexivity|].
  split; [vm_compute; reflexivity|].
  split; [vm_compute; reflexivity|].
  split; [vm_compute; reflexivity|].
  intros k Hk. vm_compute in Hk.
  repeat (destruct Hk as [<-|Hk]; [vm_compute; reflexivity|]).
  destruct Hk.
Qed.

(** C9, as amended.  The two ordinal encodings and the label encoding each
    add one field to the dataset and the one-hot encoding builds a separate
    frame of indicator fields; none removes its source field.  A value's
    ordinal code is its position in the order supplied, its label code its
    position among the distinct values in ascending lexicographic order,
    and [k] distinct cities give [k - 1] indicator fields. *)
Theorem encoders_spec :
  (forall cats v w,
      ordinal_encode cats (ObjCol v) = Some (NumCol w) ->
      List.length w = List.length v /\
      forall i o, nth_error v i = Some o ->
        exists s k,
          o = Some s /\
          nth_error w i = Some (Some (inject_Z (Z.of_nat k))) /\
          nth_error cats k = Some s /\
          forall j, (j < k)%nat -> nth_error cats j <> Some s) /\
  (forall v w,
      label_encode (ObjCol v) = Some (NumCol w) ->
      (forall x, In x (classes v) <-> In (Some x) v) /\
      StronglySorted (fun a b => String.ltb a b = true) (classes v) /\
      List.length w = List.length v /\
      forall i o, nth_error v i = Some o ->
        exists s k,
          o = Some s /\
          nth_error w i = Some (Some (inject_Z (Z.of_nat k))) /\
          nth_error (classes v) k = Some s) /\
  (forall cats v,
      (forall o, In o v -> exists s, o = Some s /\ In s cats) ->
      exists w, ordinal_encode cats (ObjCol v) = Some (NumCol w)) /\
  (forall v,
      (forall o, In o v -> o <> None) ->
      exists w, label_encode (ObjCol v) = Some (NumCol w)) /\
  (forall v prefix,
      exists e,
        get_dummies (ObjCol v) prefix true = Some e /\
        List.length e = (nunique (ObjCol v) - 1)%nat /\
        map fst e
        = map (fun k => (prefix ++ "_" ++ k)%string) (tl (classes v)) /\
        forall k, In k (tl (classes v)) ->
                  In ((prefix ++ "_" ++ k)%string, indicator k v) e) /\
  (forall k v i o,
      nth_error v i = Some o ->
      exists w,
        indicator k v = NumCol w /\
        nth_error w i = Some (Some (if opt_eqb String.eqb o (Some k)
                                    then 1%Q else 0%Q))) /\
  (forall d c v c', c' <> c -> getitem (put_col d c v) c' = getitem d c') /\
  size_order = ["Small"; "Medium"; "Large"; "XL"] /\
  grade_order = ["C"; "B"; "A"] /\
  option_map columns (frame_of at_end "df_clean")
  = option_map (fun d => columns d ++ ["size_encoded"; "grade_encoded";
                                       "category_encoded"])
               (frame_of at_age_capped "df_clean") /\
  column_of at_end "df_clean" "city"
  = column_of at_age_capped "df_clean" "city" /\
  column_of at_end "df_clean" "shirt_size"
  = column_of at_age_capped "df_clean" "shirt_size" /\
  column_of at_end "df_clean" "grade"
  = column_of at_age_capped "df_clean" "grade" /\
  column_of at_end "df_clean" "product_category"
  = column_of at_age_capped "df_clean" "product_category" /\
  column_of at_end "df_clean" "size_encoded"
  = (c <- column_of at_age_capped "df_clean" "shirt_size" ;;
     ordinal_encode size_order c) /\
  column_of at_end "df_clean" "grade_encoded"
  = (c <- column_of at_age_capped "df_clean" "grade" ;;
     ordinal_encode grade_order c) /\
  column_of at_end "df_clean" "category_encoded"
  = (c <- column_of at_age_capped "df_clean" "product_category" ;;
     label_encode c) /\
  frame_of at_end "city_encoded"
  = (c <- column_of at_age_capped "df_clean" "city" ;;
     get_dummies c "city" true) /\
  option_map nunique (column_of at_age_capped "df_clean" "city")
  = Some 6%nat /\
  option_map (@List.length _) (frame_of at_end "city_encoded") = Some 5%nat /\
  classes (strings_of (column_of at_age_capped "df_clean" "product_category"))
  = ["Clothing"; "Electronics"; "Furniture"].
Proof.
  split.
  { intros cats v w H. simpl in H.
    destruct (mapM (code cats) v) as [w'|] eqn:E; [|discriminate].
    injection H as <-. exact (code_position cats v w' E). }
  split.
  { intros v w H. simpl in H.
    destruct (mapM (code (classes v)) v) as [w'|] eqn:E; [|discriminate].
    injection H as <-. destruct (classes_spec v) as [C1 C2].
    destruct (code_position _ _ _ E) as [Hl Hn].
    split; [exact C1|]. split; [exact C2|]. split; [exact Hl|].
    intros i o Ho. destruct (Hn i o Ho) as [s [k [H1 [H2 [H3 _]]]]].
    exists s, k. auto. }
  split.
  { intros cats v H. destruct (code_defined cats v H) as [w E].
    exists w. simpl. now rewrite E. }
  split.
  { intros v H. destruct (code_defined (classes v) v) as [w E].
    - intros [s|] Ho; [|now destruct (H None Ho)].
      exists s. split; [reflexivity|]. now apply classes_spec.
    - exists w. simpl. now rewrite E. }
  split; [exact get_dummies_drop_first|].
  split; [exact indicator_nth|].
  split; [exact getitem_put_col_other|].
  repeat split; vm_compute; reflexivity.
Qed.

Lemma encoders_spec_witness :
  exists w,
    ordinal_encode grade_order (ObjCol [Some "A"; Some "C"]) = Some (NumCol w)
    /\ List.length w = 2%nat.
Proof.
  eexists. split; [vm_compute; reflexivity|].
  apply (proj1 encoders_spec grade_order [Some "A"; Some "C"]).
  vm_compute. reflexivity.
Defined.

(** ** The original frame *)

(** C10. Once [df_clean = df.copy()] has run, every later statement
    assigns into the object [df_clean] refers to or binds a variable other
    than [df] to a new object; the frame [df] refers to is the 23-row frame
    of the set-up when the script ends. *)
Theorem original_frame_untouched :
  (forall data0 s,
      run (script data0) empty_store = Some s ->
      exists t d0,
        iloc data0 [4; 5; 6]%nat = Some t /\
        pd_concat data0 t = Some d0 /\
        frame s "df" = Some d0) /\
  Forall preserves_df stages /\
  (exists s, at_end = Some s) /\
  frame_of at_end "df" = frame_of at_copy "df" /\
  frame_of at_copy "df_clean" = frame_of at_copy "df" /\
  option_map nrows (frame_of at_end "df") = Some 23%nat /\
  option_map nrows (frame_of at_end "df_clean") = Some 20%nat /\
  column_of at_end "df" "age"
  = option_map (fun c => ObjCol (strings_of (Some c)
                                 ++ [Some "25"; Some "30";
                                     Some "twenty-eight"]))
               (getitem data "age").
Proof.
  split.
  { intros data0 s H. unfold script in H. rewrite run_app in H.
    destruct (run (setup data0) empty_store) as [s0|] eqn:E0; [|discriminate].
    simpl in H. destruct (setup_state data0 s0 E0) as [t [d0 [H1 [H2 [H3 _]]]]].
    exists t, d0. split; [exact H1|]. split; [exact H2|].
    destruct (run_preserves_df stages stages_preserve_df d0 s0 s H3 H)
      as [r [Hr [Hd _]]].
    unfold frame. rewrite Hr. exact Hd. }
  split; [exact stages_preserve_df|].
  split; [eexists; vm_compute; reflexivity|].
  repeat split; vm_compute; reflexivity.
Qed.

Lemma original_frame_untouched_witness :
  exists s d0,
    run (script data) empty_store = Some s /\ frame s "df" = Some d0 /\
    nrows d0 = 23%nat.
Proof.
  assert (H : exists s, run (script data) empty_store = Some s)
    by (eexists; vm_compute; reflexivity).
  destruct H as [s Hs].
  destruct (proj1 original_frame_untouched data s Hs) as [t [d0 [H1 [H2 H3]]]].
  exists s, d0. split; [exact Hs|]. split; [exact H3|].
  vm_compute in H1. injection H1 as <-.
  vm_compute in H2. injection H2 as <-. reflexivity.
Defined.

(** ** End to end *)

(** C1. What the script computes on its literal dataset: twenty rows and no
    missing value in the four treated fields, but an age mean of 643/18
    (35.72), a purchase mean of 7042.60, purchase limits -7720.15 and
    15900.25 and an upper age limit of 43.625, so that purchase amounts of
    15900.25 and an age of 43.625 are in the output. *)
Theorem end_to_end_figures :
  option_map nrows (frame_of at_end "df_clean") = Some 20%nat /\
  option_map isnull_sum (column_of at_end "df_clean" "age") = Some 0%nat /\
  option_map isnull_sum (column_of at_end "df_clean" "city") = Some 0%nat /\
  option_map isnull_sum (column_of at_end "df_clean" "purchase_amount")
  = Some 0%nat /\
  option_map isnull_sum (column_of at_end "df_clean" "shirt_size")
  = Some 0%nat /\
  same_values [age_mean; purchase_mean] [Some (643 # 18); Some 7042.6]%Q
  = true /\
  same_values [fst purchase_limits; snd purchase_limits]
              [Some (-7720.15); Some 15900.25]%Q = true /\
  same_values [fst age_limits; snd age_limits]
              [Some 16.625; Some 43.625]%Q = true /\
  same_values
    [min_vals (values_of (column_of at_end "df_clean" "purchase_amount"));
     max_vals (values_of (column_of at_end "df_clean" "purchase_amount"));
     min_vals (values_of (column_of at_end "df_clean" "age"));
     max_vals (values_of (column_of at_end "df_clean" "age"))]
    [Some 800.3; Some 15900.25; Some 22; Some 43.625]%Q = true /\
  existsb (fun x => flt (Some 2551.78%Q) x)
          (values_of (column_of at_end "df_clean" "purchase_amount")) = true /\
  existsb (fun x => flt (Some 42.5%Q) x)
          (values_of (column_of at_end "df_clean" "age")) = true /\
  flt (Some 29.46%Q) age_mean = true /\
  flt (Some 1445.34%Q) purchase_mean = true /\
  flt (Some 42.5%Q) (snd age_limits) = true.
Proof. repeat split; vm_compute; reflexivity. Qed.

(** ** Boolean indexing keeps whole rows *)

Lemma select_map {A B : Type} (f : A -> B) m l :
  select m (map f l) = map f (select m l).
Proof.
  revert l; induction m as [|b m IH]; intros [|x l]; simpl; try reflexivity.
  destruct b; simpl; now rewrite IH.
Qed.

Lemma cells_select_col m c : cells (select_col m c) = select m (cells c).
Proof. destruct c; simpl; now rewrite select_map. Qed.

Lemma cells_tail_col c : cells (tail_col c) = tl (cells c).
Proof. destruct c as [[|x v]|[|x v]|[|x v]]; reflexivity. Qed.

Lemma col_len_cells c : col_len c = List.length (cells c).
Proof. destruct c; simpl; now rewrite length_map. Qed.

Lemma row_at_tail d i : row_at (tail_df d) i = row_at d (S i).
Proof.
  unfold row_at, tail_df. rewrite map_map. apply map_ext. intros [n c].
  simpl. rewrite cells_tail_col.
  destruct (cells c); [now destruct i | reflexivity].
Qed.

Lemma rows_step d n :
  nrows d = S n -> nrows (tail_df d) = n ->
  rows d = row_at d 0 :: rows (tail_df d).
Proof.
  intros H1 H2. unfold rows. rewrite H1, H2. simpl. f_equal.
  rewrite <- seq_shift, map_map. apply map_ext. intros i.
  now rewrite row_at_tail.
Qed.

Lemma nrows_tail d n :
  Forall (fun p => col_len (snd p) = S n) d ->
  Forall (fun p => col_len (snd p) = n) (tail_df d).
Proof.
  intros H. unfold tail_df. apply Forall_map.
  eapply Forall_impl; [|exact H]. intros [k c] E. simpl in *.
  rewrite col_len_cells in *. rewrite cells_tail_col.
  destruct (cells c); simpl in *; [discriminate | congruence].
Qed.

Lemma nrows_of_lengths d n :
  d <> [] -> Forall (fun p => col_len (snd p) = n) d -> nrows d = n.
Proof.
  destruct d as [|[k c] d]; [congruence|]. intros _ H.
  now inversion H.
Qed.

Lemma select_df_step b m d n :
  Forall (fun p => col_len (snd p) = S n) d ->
  tail_df (select_df (b :: m) d)
  = (if b then select_df m (tail_df d)
     else tail_df (select_df m (tail_df d))) /\
  (b = false -> select_df (b :: m) d = select_df m (tail_df d)) /\
  (b = true -> row_at (select_df (b :: m) d) 0 = row_at d 0).
Proof.
  intros H. unfold tail_df, select_df, row_at. rewrite !map_map.
  split; [|split].
  - destruct b; rewrite ?map_map; apply map_ext_Forall;
      (eapply Forall_impl; [|exact H]); intros [k c] E; simpl in *;
      destruct c as [[|x v]|[|x v]|[|x v]]; simpl in *; try discriminate;
      reflexivity.
  - intros ->. apply map_ext_Forall.
    eapply Forall_impl; [|exact H]. intros [k c] E. simpl in *.
    destruct c as [[|x v]|[|x v]|[|x v]]; simpl in *; try discriminate; reflexivity.
  - intros ->. apply map_ext_Forall.
    eapply Forall_impl; [|exact H]. intros [k c] E. simpl in *.
    destruct c as [[|x v]|[|x v]|[|x v]]; simpl in *; try discriminate; reflexivity.
Qed.

Lemma select_df_lengths m d n :
  List.length m = n ->
  Forall (fun p => col_len (snd p) = n) d ->
  Forall (fun p => col_len (snd p)
                   = List.length (filter (fun b => b) m)) (select_df m d).
Proof.
  intros Hm H. unfold select_df. apply Forall_map.
  eapply Forall_impl; [|exact H]. intros [k c] E. simpl in *.
  apply select_col_len. congruence.
Qed.

(** The rows of [df[mask]] are the rows of [df] at which the mask holds,
    each with all its fields, in their order. *)
Lemma rows_select_df m d :
  Forall (fun p => col_len (snd p) = List.length m) d ->
  rows (select_df m d) = select m (rows d).
Proof.
  destruct d as [|p0 d0]; [now destruct m|].
  set (d := p0 :: d0). assert (Hd : d <> []) by discriminate.
  clearbody d. clear p0 d0.
  revert d Hd. induction m as [|b m IH]; intros d Hd H.
  - assert (E : nrows (select_df [] d) = 0%nat).
    { apply nrows_of_lengths.
      - destruct d; [congruence | discriminate].
      - apply (select_df_lengths [] d 0%nat eq_refl H). }
    unfold rows at 1. rewrite E. reflexivity.
  - simpl List.length in H.
    pose proof (nrows_tail d _ H) as Ht.
    assert (Htd : tail_df d <> []) by (destruct d; [congruence | discriminate]).
    rewrite (rows_step d (List.length m));
      [| now apply nrows_of_lengths | now apply nrows_of_lengths].
    destruct (select_df_step b m d _ H) as [S1 [S2 S3]].
    specialize (IH (tail_df d) Htd Ht).
    destruct b; simpl select.
    + pose proof (select_df_lengths (true :: m) d _ eq_refl H) as L.
      simpl in L.
      assert (Hs : select_df (true :: m) d <> [])
        by (destruct d; [congruence | discriminate]).
      rewrite (rows_step (select_df (true :: m) d)
                 (List.length (filter (fun b => b) m))).
      * rewrite S1, S3 by reflexivity. now rewrite IH.
      * now apply nrows_of_lengths.
      * rewrite S1. apply nrows_of_lengths.
        -- destruct d; [congruence | discriminate].
        -- now apply (select_df_lengths m (tail_df d) (List.length m)).
    + rewrite S2 by reflexivity. exact IH.
Qed.

Lemma select_df_rectangular m d :
  rectangular d -> List.length m = nrows d -> rectangular (select_df m d).
Proof.
  intros H Hm. destruct d as [|p0 d0] eqn:E; [constructor|]. rewrite <- E in *.
  assert (Hd : d <> []) by (rewrite E; discriminate).
  pose proof (select_df_lengths m d (nrows d) Hm H) as L.
  unfold rectangular.
  rewrite (nrows_of_lengths (select_df m d) _) with (2 := L); [exact L|].
  rewrite E. discriminate.
Qed.

Lemma duplicated_from_distinct {A : Type} (eqb : A -> A -> bool) seen l :
  (forall x y, eqb x y = true -> eqb y x = true) ->
  ForallOrdPairs (fun a b => eqb a b = false) l ->
  (forall x, In x l -> existsb (eqb x) seen = false) ->
  duplicated_from eqb seen l = map (fun _ => false) l.
Proof.
  intros Hsym Hl. revert seen.
  induction Hl as [|x t Hx Ht IH]; intros seen Hs; simpl; [reflexivity|].
  rewrite (Hs x (or_introl eq_refl)). f_equal. apply IH.
  intros y Hy. simpl. rewrite (Hs y (or_intror Hy)), orb_false_r.
  rewrite Forall_forall in Hx.
  now apply (eqb_false_sym eqb Hsym), Hx.
Qed.

Lemma select_all {A : Type} (m : list bool) (l : list A) :
  Forall (fun b => b = true) m -> (List.length l <= List.length m)%nat ->
  select m l = l.
Proof.
  intros Hm. revert l. induction Hm as [|b m -> _ IH]; intros [|x l] H;
    simpl in *; try reflexivity; try lia.
  rewrite IH; [reflexivity | lia].
Qed.

Lemma select_df_all m d :
  Forall (fun b => b = true) m ->
  Forall (fun p => col_len (snd p) = List.length m) d ->
  select_df m d = d.
Proof.
  intros Hm H. unfold select_df. rewrite <- (map_id d) at 2.
  apply map_ext_Forall. eapply Forall_impl; [|exact H].
  intros [k c] E. simpl in *. f_equal.
  destruct c; simpl in *; f_equal; apply select_all; auto; lia.
Qed.

Lemma rows_drop_duplicates d :
  rectangular d -> rows (drop_duplicates d) = keep_first row_eqb (rows d).
Proof.
  intros H. unfold drop_duplicates, keep_first. apply rows_select_df.
  unfold duplicated.
  now rewrite length_map, duplicated_from_length, rows_length.
Qed.

Lemma drop_duplicates_rectangular d :
  rectangular d -> rectangular (drop_duplicates d).
Proof.
  intros H. apply select_df_rectangular; [exact H|]. unfold duplicated.
  now rewrite length_map, duplicated_from_length, rows_length.
Qed.

(** ** Duplicate elimination *)

Lemma cell_eqb_same_field a b : cell_eqb a b = true <-> same_field a b.
Proof.
  split.
  - destruct a as [[x|]|[s|]|m], b as [[y|]|[t|]|n]; simpl;
      try discriminate; intros H.
    + constructor. now apply Qeq_bool_iff.
    + constructor.
    + apply String.eqb_eq in H. subst. constructor.
    + constructor.
    + apply Bool.eqb_prop in H. subst. constructor.
  - intros H. destruct H; simpl.
    + now apply Qeq_bool_iff.
    + reflexivity.
    + apply String.eqb_refl.
    + reflexivity.
    + apply Bool.eqb_reflx.
Qed.

Lemma row_eqb_map {A : Type} (f g : A -> cell) l :
  row_eqb (map f l) (map g l) = true
  <-> Forall (fun p => cell_eqb (f p) (g p) = true) l.
Proof.
  induction l as [|p l IH]; simpl.
  - split; [constructor | reflexivity].
  - rewrite andb_true_iff, IH. split.
    + intros [H1 H2]. now constructor.
    + intros H. inversion H; subst. now split.
Qed.

Lemma nth_rows d i : (i < nrows d)%nat -> nth i (rows d) [] = row_at d i.
Proof.
  intros H. unfold rows.
  rewrite (nth_indep _ [] (row_at d 0%nat))
    by now rewrite length_map, length_seq.
  rewrite (map_nth (row_at d)). now rewrite seq_nth.
Qed.

(** Two rows of a frame compare equal exactly when they agree in every
    field. *)
Lemma row_eqb_same_rows d i j :
  rectangular d -> (i < nrows d)%nat -> (j < nrows d)%nat ->
  (row_eqb (nth i (rows d) []) (nth j (rows d) []) = true <-> same_rows d i j).
Proof.
  intros Hr Hi Hj. rewrite !nth_rows by assumption.
  unfold row_at, same_rows. rewrite row_eqb_map.
  unfold rectangular in Hr. rewrite !Forall_forall in *.
  split; intros H p Hp; specialize (H p Hp); specialize (Hr p Hp);
    rewrite col_len_cells in Hr.
  - exists (nth i (cells (snd p)) (CNum None)),
           (nth j (cells (snd p)) (CNum None)).
    split; [apply nth_error_nth'; lia|].
    split; [apply nth_error_nth'; lia|].
    now apply cell_eqb_same_field.
  - destruct H as [a [b [Ha [Hb Hab]]]].
    rewrite (nth_error_nth _ _ _ Ha), (nth_error_nth _ _ _ Hb).
    now apply cell_eqb_same_field.
Qed.

(** C6. Two rows are duplicates exactly when they agree in every field:
    numbers of the same value, the same string, or a missing entry on both
    sides; a field that differs in value, or is missing on one side only,
    tells the rows apart.  A row is dropped exactly when an earlier row is
    its duplicate, so the first occurrence of each group stays, and the
    rows that stay keep their order; the number of rows left is the number
    of input rows minus, summed over the groups, the occurrences beyond
    the first; the 23 rows of the script become 20. *)
Theorem drop_duplicates_keeps_first_occurrences :
  (forall a b, cell_eqb a b = true <-> same_field a b) /\
  (forall d i j,
      rectangular d -> (i < nrows d)%nat -> (j < nrows d)%nat ->
      (row_eqb (nth i (rows d) []) (nth j (rows d) []) = true
       <-> same_rows d i j)) /\
  (forall d i,
      rectangular d ->
      (nth i (duplicated row_eqb (rows d)) false = true <->
       (i < nrows d)%nat /\ exists j, (j < i)%nat /\ same_rows d i j)) /\
  (forall d,
      rectangular d ->
      rows (drop_duplicates d)
      = select (map negb (duplicated row_eqb (rows d))) (rows d)) /\
  (forall d,
      (nrows (drop_duplicates d)
       + list_sum (map (fun r => occurrences row_eqb r (rows d) - 1)
                       (keep_first row_eqb (rows d)))
       = nrows d)%nat) /\
  rows (drop_duplicates
          [("id", NumCol [Some 1; Some 2; Some 1; Some 1; Some 1]%Q);
           ("city", ObjCol [Some "a"; Some "a"; Some "a"; None; None])])
  = [[CNum (Some 1%Q); CObj (Some "a")]; [CNum (Some 2%Q); CObj (Some "a")];
     [CNum (Some 1%Q); CObj None]] /\
  option_map nrows (frame_of at_typed "df_clean") = Some 23%nat /\
  option_map duplicated_sum (frame_of at_typed "df_clean") = Some 3%nat /\
  option_map nrows (frame_of at_deduplicated "df_clean") = Some 20%nat.
Proof.
  split; [exact cell_eqb_same_field|].
  split; [exact row_eqb_same_rows|].
  split.
  { intros d i Hr.
    unfold duplicated.
    rewrite (duplicated_from_nth row_eqb row_eqb_sym row_eqb_trans
               [] (rows d) i []).
    rewrite rows_length. simpl. split.
    - intros [Hi [H|[j [Hj H]]]]; [discriminate|].
      split; [exact Hi|]. exists j. split; [exact Hj|].
      apply row_eqb_same_rows; [exact Hr | exact Hi | lia | exact H].
    - intros [Hi [j [Hj H]]]. split; [exact Hi|]. right.
      exists j. split; [exact Hj|].
      apply row_eqb_same_rows; [exact Hr | exact Hi | lia | exact H]. }
  split.
  { intros d Hr. fold (keep_first row_eqb (rows d)).
    now apply rows_drop_duplicates. }
  split.
  { intros d. rewrite nrows_drop_duplicates.
    rewrite list_sum_pred.
    - rewrite (keep_first_occurrences row_eqb row_eqb_refl row_eqb_sym
                 row_eqb_trans).
      apply rows_length.
    - intros r Hr. apply occurrences_pos; [exact row_eqb_refl|].
      now apply (keep_first_incl row_eqb row_eqb_sym row_eqb_trans). }
  repeat split; vm_compute; reflexivity.
Qed.

Lemma drop_duplicates_keeps_first_occurrences_witness :
  nth 2 (duplicated row_eqb
           (rows [("id", NumCol [Some 1; Some 2; Some 1]%Q);
                  ("city", ObjCol [None; None; None])])) false = true /\
  ~ same_rows [("id", NumCol [Some 1; Some 2; Some 1]%Q);
               ("city", ObjCol [None; None; None])] 1 0.
Proof.
  pose (d := [("id", NumCol [Some 1; Some 2; Some 1]%Q);
              ("city", ObjCol [None; None; None])]).
  assert (Hr : rectangular d) by (repeat constructor).
  split.
  - apply (proj1 (proj2 (proj2 drop_duplicates_keeps_first_occurrences))
             d 2%nat Hr).
    split; [simpl; lia|]. exists 0%nat. split; [lia|].
    repeat constructor; simpl; eexists; eexists;
      (split; [reflexivity|]); (split; [reflexivity|]); constructor.
    reflexivity.
  - intros H.
    apply (proj1 (proj2 drop_duplicates_keeps_first_occurrences)
             d 1%nat 0%nat Hr ltac:(simpl; lia) ltac:(simpl; lia)) in H.
    vm_compute in H. discriminate.
Defined.

(** * Further properties of the code *)

(** X1. After [drop_duplicates] no row of the frame is a duplicate of an
    earlier one, and removing duplicates again changes nothing. *)
Theorem drop_duplicates_idempotent :
  forall d,
    rectangular d ->
    rectangular (drop_duplicates d) /\
    duplicated_sum (drop_duplicates d) = 0%nat /\
    drop_duplicates (drop_duplicates d) = drop_duplicates d.
Proof.
  intros d H. pose proof (drop_duplicates_rectangular d H) as H'.
  assert (E : duplicated row_eqb (rows (drop_duplicates d))
              = map (fun _ => false) (rows (drop_duplicates d))).
  { unfold duplicated. apply duplicated_from_distinct.
    - exact row_eqb_sym.
    - rewrite rows_drop_duplicates by exact H.
      apply keep_first_distinct; [exact row_eqb_sym | exact row_eqb_trans].
    - reflexivity. }
  split; [exact H'|]. split.
  - unfold duplicated_sum. rewrite E.
    generalize (rows (drop_duplicates d)). intros l.
    induction l as [|r l IH]; simpl; [reflexivity | exact IH].
  - unfold drop_duplicates at 1. rewrite E. apply select_df_all.
    + rewrite map_map. apply Forall_map. apply Forall_forall. reflexivity.
    + rewrite !length_map, rows_length. exact H'.
Qed.

Lemma drop_duplicates_idempotent_witness :
  drop_duplicates
    (drop_duplicates [("a", NumCol [Some 1%Q; None; Some 1%Q; None]);
                      ("b", strs ["x"; "y"; "x"; "y"])])
  = drop_duplicates [("a", NumCol [Some 1%Q; None; Some 1%Q; None]);
                     ("b", strs ["x"; "y"; "x"; "y"])].
Proof.
  apply drop_duplicates_idempotent. repeat constructor.
Defined.

(** X2. [drop_duplicates] loses no row and invents none: every row of the
    input has an equal row in the output, every row of the output is a row
    of the input, and no two rows of the output are equal. *)
Theorem drop_duplicates_represents_every_row :
  forall d,
    rectangular d ->
    (forall r, In r (rows d) ->
               exists r', In r' (rows (drop_duplicates d)) /\
                          row_eqb r r' = true) /\
    (forall r', In r' (rows (drop_duplicates d)) -> In r' (rows d)) /\
    ForallOrdPairs (fun a b => row_eqb a b = false)
                   (rows (drop_duplicates d)).
Proof.
  intros d H. rewrite rows_drop_duplicates by exact H. split; [|split].
  - apply keep_first_represents;
      [exact row_eqb_refl | exact row_eqb_sym | exact row_eqb_trans].
  - apply keep_first_incl; [exact row_eqb_sym | exact row_eqb_trans].
  - apply keep_first_distinct; [exact row_eqb_sym | exact row_eqb_trans].
Qed.

Lemma drop_duplicates_represents_every_row_witness :
  exists r',
    In r' (rows (drop_duplicates [("a", NumCol [Some 1%Q; None; Some 1%Q])]))
    /\ row_eqb [CNum None] r' = true.
Proof.
  apply (proj1 (drop_duplicates_represents_every_row
                  [("a", NumCol [Some 1%Q; None; Some 1%Q])]
                  ltac:(repeat constructor))).
  simpl. auto.
Defined.

(** ** Row filters *)

Lemma Qltb_lt' x y : Qltb x y = true -> (x < y)%Q.
Proof.
  unfold Qltb. rewrite negb_true_iff. intros H.
  destruct (Qlt_le_dec x y) as [L|L]; [exact L|].
  apply Qle_bool_iff in L. congruence.
Qed.






Lemma as_num_obj_missing v :
  dropna v = [] -> as_num (ObjCol v) = Some (map (fun _ => None) v).
Proof.
  simpl. induction v as [|[s|] t IH]; simpl; [reflexivity | discriminate |].
  intros H. now rewrite (IH H).
Qed.

Lemma as_num_obj_string v : dropna v <> [] -> as_num (ObjCol v) = None.
Proof.
  simpl. induction v as [|[s|] t IH]; simpl; [congruence | reflexivity |].
  intros H. now rewrite (IH H).
Qed.




(** ** The five-number summary *)

Local Open Scope Q_scope.

Lemma fold_min xs x :
  let m := fold_left (fun a b => if Qle_bool b a then b else a) xs x in
  In m (x :: xs) /\ forall y, In y (x :: xs) -> m <= y.
Proof.
  revert x. induction xs as [|b xs IH]; intros x; simpl.
  - split; [now left|]. intros y [<-|[]]. apply Qle_refl.
  - destruct (Qle_bool b x) eqn:E.
    + apply Qle_bool_iff in E. destruct (IH b) as [H1 H2]. split.
      * right. exact H1.
      * intros y [<-|Hy]; [|now apply H2].
        apply Qle_trans with b; [apply H2; now left | exact E].
    + assert (Hx : x <= b).
      { destruct (Qlt_le_dec x b) as [L|L]; [lra|].
        apply Qle_bool_iff in L. congruence. }
      destruct (IH x) as [H1 H2]. split.
      * destruct H1 as [H1|H1]; [now left | right; now right].
      * intros y [<-|[<-|Hy]].
        -- apply H2. now left.
        -- apply Qle_trans with x; [apply H2; now left | exact Hx].
        -- apply H2. now right.
Qed.

Lemma fold_max xs x :
  let m := fold_left (fun a b => if Qle_bool a b then b else a) xs x in
  In m (x :: xs) /\ forall y, In y (x :: xs) -> y <= m.
Proof.
  revert x. induction xs as [|b xs IH]; intros x; simpl.
  - split; [now left|]. intros y [<-|[]]. apply Qle_refl.
  - destruct (Qle_bool x b) eqn:E.
    + apply Qle_bool_iff in E. destruct (IH b) as [H1 H2]. split.
      * right. exact H1.
      * intros y [<-|Hy]; [|now apply H2].
        apply Qle_trans with b; [exact E | apply H2; now left].
    + assert (Hx : b <= x).
      { destruct (Qlt_le_dec b x) as [L|L]; [lra|].
        apply Qle_bool_iff in L. congruence. }
      destruct (IH x) as [H1 H2]. split.
      * destruct H1 as [H1|H1]; [now left | right; now right].
      * intros y [<-|[<-|Hy]].
        -- apply H2. now left.
        -- apply Qle_trans with x; [exact Hx | apply H2; now left].
        -- apply H2. now right.
Qed.

Lemma min_vals_least v :
  dropna v <> [] ->
  exists m, min_vals v = Some m /\ In m (dropna v) /\
            forall y, In y (dropna v) -> m <= y.
Proof.
  intros H. unfold min_vals. destruct (dropna v) as [|x xs]; [congruence|].
  eexists. split; [reflexivity|]. apply fold_min.
Qed.

Lemma max_vals_greatest v :
  dropna v <> [] ->
  exists m, max_vals v = Some m /\ In m (dropna v) /\
            forall y, In y (dropna v) -> y <= m.
Proof.
  intros H. unfold max_vals. destruct (dropna v) as [|x xs]; [congruence|].
  eexists. split; [reflexivity|]. apply fold_max.
Qed.

(** The interpolated quantile grows with the level. *)
Lemma interpolate_mono s p q :
  StronglySorted (fun x y => Qle_bool x y = true) s -> s <> [] ->
  0 <= p -> p <= q -> q <= 1 ->
  interpolate p s <= interpolate q s.
Proof.
  intros Hs Hne Hp Hpq Hq.
  set (n := List.length s). set (M := inject_Z (Z.of_nat (n - 1))).
  assert (HM : 0 <= M).
  { unfold M. change 0 with (inject_Z 0). rewrite <- Zle_Qle. lia. }
  assert (Hn : (0 < n)%nat)
    by (unfold n; destruct s; [congruence | simpl; lia]).
  assert (Hp1 : p <= 1) by lra. assert (Hq0 : 0 <= q) by lra.
  destruct (floor_index s p Hp Hp1) as [F1 [I1 [G1 G1']]].
  destruct (floor_index s q Hq0 Hq) as [F3 [I3 [G3 G3']]].
  destruct (interpolate_between s Hs Hne p Hp Hp1) as [_ U1].
  destruct (interpolate_between s Hs Hne q Hq0 Hq) as [L3 _].
  fold n in F1, I1, G1, G1', F3, I3, G3, G3', U1, L3.
  fold M in F1, I1, G1, G1', F3, I3, G3, G3', U1, L3.
  assert (Hh : p * M <= q * M) by (apply Qmult_le_compat_r; assumption).
  pose proof (Qfloor_resp_le _ _ Hh) as Hff.
  set (f1 := Qfloor (p * M)) in *. set (f3 := Qfloor (q * M)) in *.
  destruct (Z.eq_dec f1 f3) as [E|NE].
  - unfold interpolate. fold n M. fold f1 f3. rewrite <- E.
    apply lerp_mono.
    + apply nth_le; [exact Hs | lia | fold n; lia].
    + rewrite <- E in *. lra.
  - assert (Hlt : (Z.to_nat f1 + 1 <= Z.to_nat f3)%nat) by lia.
    apply Qle_trans with (nth (Nat.min (Z.to_nat f1 + 1) (n - 1)) s 0);
      [exact U1|].
    apply Qle_trans with (nth (Z.to_nat f3) s 0); [|exact L3].
    apply nth_le; [exact Hs | lia | fold n; lia].
Qed.

(** A quantile lies between two of the values. *)
Lemma quantile_vals_in_range v p :
  dropna v <> [] -> 0 <= p -> p <= 1 ->
  exists q a b,
    quantile_vals p v = Some q /\
    In a (dropna v) /\ In b (dropna v) /\ a <= q /\ q <= b.
Proof.
  intros H Hp0 Hp1. rewrite quantile_vals_interpolate by exact H.
  set (s := sort Qle_bool (dropna v)).
  assert (Hs : StronglySorted (fun x y => Qle_bool x y = true) s)
    by (apply sort_sorted; [apply Qle_bool_total | apply Qle_bool_trans]).
  assert (Hl : List.length s = List.length (dropna v))
    by apply sort_length.
  assert (Hne : s <> []).
  { intros E. rewrite E in Hl. destruct (dropna v); [congruence|discriminate]. }
  destruct (interpolate_between s Hs Hne p Hp0 Hp1) as [L U].
  destruct (floor_index s p Hp0 Hp1) as [_ [I _]].
  assert (Hn : (0 < List.length s)%nat)
    by (destruct s; [congruence | simpl; lia]).
  eexists _, _, _. split; [reflexivity|].
  split; [|split; [|split; [exact L | exact U]]].
  - apply (proj1 (sort_In Qle_bool (dropna v) _)). fold s.
    apply nth_In. lia.
  - apply (proj1 (sort_In Qle_bool (dropna v) _)). fold s.
    apply nth_In. lia.
Qed.

(** X4. On a series with at least one value the five numbers the script
    prints are defined and come in order:
    minimum <= Q1 <= median <= Q3 <= maximum. *)
Theorem five_number_summary_ordered :
  forall v,
    dropna v <> [] ->
    exists mn q1 q2 q3 mx,
      five_number_summary v = (Some mn, Some q1, Some q2, Some q3, Some mx) /\
      mn <= q1 /\ q1 <= q2 /\ q2 <= q3 /\ q3 <= mx.
Proof.
  intros v H.
  destruct (min_vals_least v H) as [mn [Emn [_ Hmn]]].
  destruct (max_vals_greatest v H) as [mx [Emx [_ Hmx]]].
  destruct (quantile_vals_in_range v 0.25 H) as [q1 [a1 [_ [E1 [Ha1 [_ [L1 _]]]]]]];
    [lra | lra |].
  destruct (quantile_vals_in_range v 0.75 H) as [q3 [_ [b3 [E3 [_ [Hb3 [_ U3]]]]]]];
    [lra | lra |].
  assert (Hs : StronglySorted (fun x y => Qle_bool x y = true)
                              (sort Qle_bool (dropna v)))
    by (apply sort_sorted; [apply Qle_bool_total | apply Qle_bool_trans]).
  assert (Hne : sort Qle_bool (dropna v) <> []).
  { intros E. apply (f_equal (@List.length Q)) in E.
    rewrite sort_length in E. destruct (dropna v); [congruence|discriminate]. }
  rewrite quantile_vals_interpolate in E1, E3 by exact H.
  injection E1 as E1. injection E3 as E3.
  exists mn, q1, (interpolate 0.50 (sort Qle_bool (dropna v))), q3, mx.
  unfold five_number_summary.
  rewrite Emn, Emx, !quantile_vals_interpolate by exact H.
  rewrite E1, E3. split; [reflexivity|].
  split; [apply Qle_trans with a1; [now apply Hmn | exact L1]|].
  split; [rewrite <- E1; apply interpolate_mono; try assumption; lra|].
  split; [rewrite <- E3; apply interpolate_mono; try assumption; lra|].
  apply Qle_trans with b3; [exact U3 | now apply Hmx].
Qed.

Lemma five_number_summary_ordered_witness :
  exists mn q1 q2 q3 mx,
    five_number_summary [Some 3; None; Some 1; Some 10; Some 4]
    = (Some mn, Some q1, Some q2, Some q3, Some mx) /\ mn <= q1.
Proof.
  destruct (five_number_summary_ordered [Some 3; None; Some 1; Some 10; Some 4])
    as [mn [q1 [q2 [q3 [mx [E [H _]]]]]]].
  - simpl. discriminate.
  - exists mn, q1, q2, q3, mx. split; [exact E | exact H].
Defined.

Local Close Scope Q_scope.

(** ** What capping leaves alone *)

Local Open Scope Q_scope.

Lemma In_dropna {A : Type} (v : list (option A)) x :
  In (Some x) v -> In x (dropna v).
Proof. apply dropna_In. Qed.

(** X5. A capping pass never changes a value lying between Q1 and Q3,
    never reverses the order of two values, and never produces a value
    outside the range the series had before. *)
Theorem capping_keeps_order_and_range :
  forall v lo hi,
    iqr_limits v = (Some lo, Some hi) ->
    exists q1 q3 mn mx,
      quantile_vals 0.25 v = Some q1 /\
      quantile_vals 0.75 v = Some q3 /\
      min_vals v = Some mn /\
      max_vals v = Some mx /\
      (forall x, q1 <= x -> x <= q3 ->
                 cap (Some lo) (Some hi) (Some x) = Some x) /\
      (forall x y, x <= y ->
                   exists x' y',
                     cap (Some lo) (Some hi) (Some x) = Some x' /\
                     cap (Some lo) (Some hi) (Some y) = Some y' /\
                     x' <= y') /\
      Forall (within mn mx) (cap_vals v).
Proof.
  intros v lo hi H.
  destruct (iqr_limits_inv v lo hi H) as [q1 [q3 [E1 [E3 [Hq [Elo Ehi]]]]]].
  assert (Hne : dropna v <> []).
  { intros K. rewrite (iqr_limits_nan v K) in H. discriminate. }
  destruct (min_vals_least v Hne) as [mn [Emn [_ Hmn]]].
  destruct (max_vals_greatest v Hne) as [mx [Emx [_ Hmx]]].
  assert (Hle : lo <= hi) by (subst lo hi; lra).
  assert (Hlo : lo <= q1) by (subst lo; lra).
  assert (Hhi : q3 <= hi) by (subst hi; lra).
  exists q1, q3, mn, mx.
  split; [exact E1|]. split; [exact E3|].
  split; [exact Emn|]. split; [exact Emx|].
  split; [|split].
  - intros x Hx1 Hx3. rewrite cap_value by exact Hle.
    assert (A : Qltb x lo = false) by (apply Qltb_ge; lra).
    assert (B : Qltb hi x = false) by (apply Qltb_ge; lra).
    now rewrite A, B.
  - intros x y Hxy. rewrite !cap_value by exact Hle.
    eexists _, _. split; [reflexivity|]. split; [reflexivity|].
    destruct (Qltb x lo) eqn:A; [apply Qltb_lt' in A | apply Qltb_ge in A];
      destruct (Qltb y lo) eqn:B; [apply Qltb_lt' in B | apply Qltb_ge in B
                                  | apply Qltb_lt' in B | apply Qltb_ge in B];
      try lra;
      destruct (Qltb hi y) eqn:C; [apply Qltb_lt' in C | apply Qltb_ge in C
                                  | apply Qltb_lt' in C | apply Qltb_ge in C];
      try lra;
      destruct (Qltb hi x) eqn:D; [apply Qltb_lt' in D | apply Qltb_ge in D
                                  | apply Qltb_lt' in D | apply Qltb_ge in D];
      lra.
  - destruct (quantile_vals_in_range v 0.25 Hne)
      as [q1' [_ [b [E1' [_ [Hb [_ U1]]]]]]]; [lra | lra |].
    destruct (quantile_vals_in_range v 0.75 Hne)
      as [q3' [a [_ [E3' [Ha [_ [L3 _]]]]]]]; [lra | lra |].
    rewrite E1 in E1'. injection E1' as <-.
    rewrite E3 in E3'. injection E3' as <-.
    assert (Hq1 : q1 <= mx) by (apply Qle_trans with b; [exact U1 | now apply Hmx]).
    assert (Hq3 : mn <= q3) by (apply Qle_trans with a; [now apply Hmn | exact L3]).
    unfold cap_vals. rewrite H. apply Forall_forall. intros o Ho.
    apply in_map_iff in Ho. destruct Ho as [[x|] [<- Hx]].
    + apply In_dropna in Hx. pose proof (Hmn x Hx). pose proof (Hmx x Hx).
      rewrite cap_value by exact Hle. simpl.
      destruct (Qltb x lo) eqn:A; [apply Qltb_lt' in A; lra|].
      destruct (Qltb hi x) eqn:B; [apply Qltb_lt' in B; lra|]. lra.
    + rewrite cap_nan. exact I.
Qed.

Lemma capping_keeps_order_and_range_witness :
  exists lo hi mn mx,
    iqr_limits [Some 1; Some 2; Some 3; Some 4; Some 100] = (Some lo, Some hi)
    /\ min_vals [Some 1; Some 2; Some 3; Some 4; Some 100] = Some mn
    /\ max_vals [Some 1; Some 2; Some 3; Some 4; Some 100] = Some mx
    /\ Forall (within mn mx)
              (cap_vals [Some 1; Some 2; Some 3; Some 4; Some 100]).
Proof.
  eexists. eexists.
  destruct (capping_keeps_order_and_range
              [Some 1; Some 2; Some 3; Some 4; Some 100] _ _ eq_refl)
    as [q1 [q3 [mn [mx [_ [_ [Emn [Emx [_ [_ H]]]]]]]]]].
  exists mn, mx. split; [reflexivity|]. split; [exact Emn|].
  split; [exact Emx | exact H].
Defined.

(** ** The fills on a field without values *)

Lemma dropna_fillna_vals (v : list float) (m : Q) :
  dropna (fillna_vals v (Some m))
  = map (fun o => match o with Some x => x | None => m end) v.
Proof.
  unfold fillna_vals. induction v as [|[x|] t IH]; simpl;
    [reflexivity | now rewrite IH | now rewrite IH].
Qed.

Lemma length_dropna_isnull {A : Type} (v : list (option A)) :
  (List.length (dropna v) + isnull_sum_vals v = List.length v)%nat.
Proof.
  unfold isnull_sum_vals. induction v as [|[x|] t IH]; simpl; lia.
Qed.

Lemma fillna_vals_nan {A : Type} (v : list (option A)) : fillna_vals v None = v.
Proof.
  unfold fillna_vals. rewrite <- (map_id v) at 2.
  apply map_ext. now intros [x|].
Qed.

Lemma mean_vals_nan (v : list float) : dropna v = [] -> mean_vals v = None.
Proof. intros H. unfold mean_vals. now rewrite H. Qed.

Lemma dropna_all_missing {A B : Type} (v : list B) :
  dropna (map (fun _ => @None A) v) = [].
Proof. induction v; simpl; auto. Qed.

(** X7. On a field with no value at all the two fills part ways: the mean
    is NaN and the mean fill returns the field as it is, numeric or of
    dtype object, while the mode fill raises, because [mode()] is empty and
    has no element 0.  On a field of dtype object the mode fill raises in
    no other case, and the mean fill raises exactly when the field holds a
    string. *)
Theorem fills_on_a_field_without_values :
  forall c d,
    (forall v, getitem d c = Some (NumCol v) -> dropna v = [] ->
               fill_mean c d = Some (NumCol v) /\ fill_mode c d = None) /\
    (forall v, getitem d c = Some (ObjCol v) ->
               (fill_mode c d = None <-> dropna v = []) /\
               (fill_mean c d = None <-> dropna v <> []) /\
               (dropna v = [] -> fill_mean c d = Some (ObjCol v))) /\
    (getitem d c = None -> fill_mean c d = None /\ fill_mode c d = None).
Proof.
  intros c d. split; [|split].
  - intros v E H. unfold fill_mean, fill_mode. rewrite E. cbn [bind as_num].
    split.
    + rewrite (mean_vals_nan v H). cbn [fillna].
      now rewrite fillna_vals_nan.
    + unfold mode, mode_vals. rewrite H. reflexivity.
  - intros v E.
    assert (Hmean : dropna v = [] -> fill_mean c d = Some (ObjCol v)).
    { intros H. unfold fill_mean. rewrite E. cbn [bind].
      rewrite (as_num_obj_missing v H). cbn [bind].
      rewrite mean_vals_nan by apply dropna_all_missing. reflexivity. }
    split; [|split; [|exact Hmean]].
    + unfold fill_mode. rewrite E. cbn [bind]. split.
      * intros H. destruct (dropna v) as [|a t] eqn:Ed; [reflexivity|].
        assert (Hne : dropna v <> []) by (rewrite Ed; discriminate).
        pose proof (smode_defined v Hne) as Hs.
        unfold mode, item0 in H. fold smode in H. fold (smode v) in H.
        destruct (smode v) as [|m r]; [congruence|]. simpl in H.
        discriminate.
      * intros H. unfold mode, mode_vals. rewrite H. reflexivity.
    + split.
      * intros H K. rewrite (Hmean K) in H. discriminate.
      * intros H. unfold fill_mean. rewrite E. cbn [bind].
        now rewrite (as_num_obj_string v H).
  - intros E. unfold fill_mean, fill_mode. now rewrite E.
Qed.

Lemma fills_on_a_field_without_values_witness :
  (fill_mean "age" [("age", NumCol [None; None])]
   = Some (NumCol [None; None]) /\
   fill_mode "age" [("age", NumCol [None; None])] = None) /\
  fill_mean "city" [("city", ObjCol [None; None])]
  = Some (ObjCol [None; None]).
Proof.
  split.
  - apply (proj1 (fills_on_a_field_without_values
                    "age" [("age", NumCol [None; None])])); reflexivity.
  - apply (proj2 (proj2 (proj1 (proj2 (fills_on_a_field_without_values
                                         "city"
                                         [("city", ObjCol [None; None])]))
                                [None; None] eq_refl))).
    reflexivity.
Defined.

(** ** The cardinality check *)

Section Cardinality.
Context {A : Type}.
Variable eqb : A -> A -> bool.
Hypothesis eqb_refl : forall x, eqb x x = true.
Hypothesis eqb_sym : forall x y, eqb x y = true -> eqb y x = true.
Hypothesis eqb_trans :
  forall x y z, eqb x y = true -> eqb y z = true -> eqb x z = true.

Lemma filter_length_le (p : A -> bool) l :
  (List.length (filter p l) <= List.length l)%nat.
Proof. induction l as [|a t IH]; simpl; [lia|]. destruct (p a); simpl; lia. Qed.

Lemma filter_length_eq (p : A -> bool) l :
  List.length (filter p l) = List.length l -> filter p l = l.
Proof.
  induction l as [|a t IH]; simpl; [reflexivity|].
  destruct (p a); simpl; intros H.
  - f_equal. apply IH. lia.
  - pose proof (filter_length_le p t). lia.
Qed.

Lemma keep_first_length_le l :
  (List.length (keep_first eqb l) <= List.length l)%nat.
Proof.
  induction l as [|x t IH]; [simpl; lia|].
  rewrite (keep_first_cons eqb eqb_sym eqb_trans). simpl.
  pose proof (filter_length_le (fun y => negb (eqb y x)) (keep_first eqb t)).
  lia.
Qed.

(** Nothing is removed exactly when no two entries are equal. *)
Lemma keep_first_all l :
  List.length (keep_first eqb l) = List.length l <->
  ForallOrdPairs (fun a b => eqb a b = false) l.
Proof.
  induction l as [|x t IH].
  - split; [constructor | reflexivity].
  - rewrite (keep_first_cons eqb eqb_sym eqb_trans). simpl.
    pose proof (filter_length_le (fun y => negb (eqb y x)) (keep_first eqb t)).
    pose proof (keep_first_length_le t). split.
    + intros H1.
      assert (E1 : List.length (keep_first eqb t) = List.length t) by lia.
      assert (E2 : filter (fun y => negb (eqb y x)) (keep_first eqb t)
                   = keep_first eqb t) by (apply filter_length_eq; lia).
      constructor; [|now apply IH].
      apply Forall_forall. intros y Hy.
      destruct (keep_first_represents eqb eqb_refl eqb_sym eqb_trans t y Hy)
        as [r [Hr Eyr]].
      rewrite <- E2 in Hr. apply filter_In in Hr. destruct Hr as [_ Hr].
      destruct (eqb x y) eqn:Exy; [|reflexivity].
      rewrite (eqb_sym _ _ (eqb_trans _ _ _ Exy Eyr)) in Hr. discriminate.
    + intros Hp. inversion Hp as [|? ? Hx Ht]; subst.
      apply IH in Ht. f_equal. rewrite <- Ht. f_equal.
      rewrite <- (filter_ext_in (fun _ => true)).
      * clear. induction (keep_first eqb t); simpl; congruence.
      * intros y Hy. apply (keep_first_incl eqb eqb_sym eqb_trans) in Hy.
        rewrite Forall_forall in Hx. specialize (Hx y Hy).
        now rewrite (eqb_false_sym eqb eqb_sym _ _ Hx).
Qed.

(** One entry is kept exactly when all entries equal one of them. *)
Lemma keep_first_one l :
  List.length (keep_first eqb l) = 1%nat <-> one_value eqb l.
Proof.
  destruct l as [|x t].
  - split; [discriminate | intros [y [[] _]]].
  - rewrite (keep_first_cons eqb eqb_sym eqb_trans). simpl. split.
    + intros H.
      assert (E : filter (fun y => negb (eqb y x)) (keep_first eqb t) = [])
        by (destruct (filter _ _); [reflexivity | discriminate]).
      exists x. split; [now left|]. constructor; [apply eqb_refl|].
      apply Forall_forall. intros y Hy.
      destruct (keep_first_represents eqb eqb_refl eqb_sym eqb_trans t y Hy)
        as [r [Hr Eyr]].
      destruct (eqb r x) eqn:Erx; [now apply (eqb_trans _ r)|].
      assert (K : In r (filter (fun y => negb (eqb y x)) (keep_first eqb t)))
        by (apply filter_In; now rewrite Erx).
      rewrite E in K. destruct K.
    + intros [z [_ Hz]]. inversion Hz as [|? ? Hxz Ht]; subst.
      f_equal.
      assert (E : filter (fun y => negb (eqb y x)) (keep_first eqb t) = []).
      { rewrite <- (filter_ext_in (fun _ => false)).
        - clear. induction (keep_first eqb t); simpl; congruence.
        - intros y Hy. apply (keep_first_incl eqb eqb_sym eqb_trans) in Hy.
          rewrite Forall_forall in Ht. specialize (Ht y Hy).
          now rewrite (eqb_trans _ _ _ Ht (eqb_sym _ _ Hxz)). }
      now rewrite E.
Qed.
End Cardinality.

Lemma dropna_length_le {A : Type} (v : list (option A)) :
  (List.length (dropna v) <= List.length v)%nat.
Proof. induction v as [|[x|] t IH]; simpl; lia. Qed.

Lemma xnum_eqb_refl x : xnum_eqb x x = true.
Proof. destruct x; simpl; [apply Qeq_bool_refl | apply Bool.eqb_reflx]. Qed.

Lemma xnum_eqb_sym x y : xnum_eqb x y = true -> xnum_eqb y x = true.
Proof.
  destruct x, y; simpl; try discriminate;
    [apply Qeq_bool_sym | rewrite !Bool.eqb_true_iff; congruence].
Qed.

Lemma xnum_eqb_trans x y z :
  xnum_eqb x y = true -> xnum_eqb y z = true -> xnum_eqb x z = true.
Proof.
  destruct x, y, z; simpl; try discriminate;
    [apply Qeq_bool_trans | rewrite !Bool.eqb_true_iff; congruence].
Qed.

Lemma nunique_one c : nunique c = 1%nat <-> same_throughout c.
Proof.
  destruct c as [v|v|v]; simpl; unfold nunique_vals.
  - apply keep_first_one;
      [apply Qeq_bool_refl | apply Qeq_bool_sym | apply Qeq_bool_trans].
  - apply keep_first_one;
      [apply String.eqb_refl | apply string_eqb_sym' | apply string_eqb_trans].
  - apply keep_first_one;
      [apply xnum_eqb_refl | apply xnum_eqb_sym | apply xnum_eqb_trans].
Qed.

Lemma nunique_all c :
  nunique c = col_len c <-> isnull_sum c = 0%nat /\ distinct_throughout c.
Proof.
  destruct c as [v|v|v]; simpl; unfold nunique_vals.
  - pose proof (length_dropna_isnull v).
    pose proof (keep_first_length_le Qeq_bool Qeq_bool_sym Qeq_bool_trans
                  (dropna v)).
    rewrite <- (keep_first_all Qeq_bool Qeq_bool_refl Qeq_bool_sym
                  Qeq_bool_trans).
    lia.
  - pose proof (length_dropna_isnull v).
    pose proof (keep_first_length_le String.eqb string_eqb_sym'
                  string_eqb_trans (dropna v)).
    rewrite <- (keep_first_all String.eqb String.eqb_refl string_eqb_sym'
                  string_eqb_trans).
    lia.
  - pose proof (length_dropna_isnull v).
    pose proof (keep_first_length_le xnum_eqb xnum_eqb_sym xnum_eqb_trans
                  (dropna v)).
    rewrite <- (keep_first_all xnum_eqb xnum_eqb_refl xnum_eqb_sym
                  xnum_eqb_trans).
    lia.
Qed.

(** X8. What the cardinality check of the explore step reports for a field
    of a frame: "all the same" exactly when the values present are all
    equal to one of them, missing entries not counting; "all unique"
    exactly when, that not being so, nothing is missing and no two values
    are equal; in a frame without rows every field is "all unique". *)
Theorem cardinality_check_meaning :
  forall d c,
    col_len c = nrows d ->
    (cardinality_of d c = AllSame <-> same_throughout c) /\
    (cardinality_of d c = AllUnique <->
     ~ same_throughout c /\ isnull_sum c = 0%nat /\ distinct_throughout c) /\
    (nrows d = 0%nat -> cardinality_of d c = AllUnique).
Proof.
  intros d c H. unfold cardinality_of. rewrite <- H.
  rewrite <- nunique_one, <- nunique_all.
  destruct (Nat.eqb_spec (nunique c) 1) as [E1|E1];
    destruct (Nat.eqb_spec (nunique c) (col_len c)) as [E2|E2].
  - split; [tauto|]. split; [split; [discriminate | tauto]|].
    intros Z. rewrite Z in E2. congruence.
  - split; [tauto|]. split; [split; [discriminate | tauto]|].
    intros Z. rewrite Z in H.
    assert (nunique c = 0%nat); [|congruence].
    destruct c as [v|v|v]; simpl in *; destruct v; simpl in *;
      try discriminate; reflexivity.
  - split; [split; [discriminate | tauto]|]. split; [tauto|]. reflexivity.
  - split; [split; [discriminate | tauto]|].
    split; [split; [discriminate | tauto]|].
    intros Z. rewrite Z in H. exfalso. apply E2. rewrite Z.
    destruct c as [v|v|v]; simpl in *; destruct v; simpl in *;
      try discriminate; reflexivity.
Qed.

Lemma cardinality_check_meaning_witness :
  cardinality_of [("country", ObjCol [Some "India"; None; Some "India"])]
                 (ObjCol [Some "India"; None; Some "India"]) = AllSame.
Proof.
  apply (proj1 (cardinality_check_meaning
                  [("country", ObjCol [Some "India"; None; Some "India"])]
                  (ObjCol [Some "India"; None; Some "India"]) eq_refl)).
  exists "India". split; [simpl; auto | repeat constructor].
Defined.

(** ** Dropping columns *)

(** X9. [drop(columns=names)] raises exactly when one of the names is no
    column of the frame; otherwise the result has the columns not named,
    in their order and with their values, so that running the same drop
    on the result raises. *)
Theorem drop_columns_behaviour :
  forall d names,
    (drop d names = None <->
     exists n, In n names /\ ~ In n (columns d)) /\
    (forall d',
        drop d names = Some d' ->
        columns d'
        = filter (fun n => negb (existsb (String.eqb n) names)) (columns d) /\
        (forall c, getitem d' c
                   = if existsb (String.eqb c) names then None
                     else getitem d c) /\
        (names <> [] -> drop d' names = None)).
Proof.
  intros d names. split.
  - unfold drop.
    destruct (forallb (fun n => existsb (String.eqb n) (columns d)) names)
      eqn:E.
    + split; [discriminate|]. intros [n [Hn Hc]].
      rewrite forallb_forall in E. specialize (E n Hn).
      apply existsb_exists in E. destruct E as [k [Hk Ek]].
      apply String.eqb_eq in Ek. subst. contradiction.
    + split; [|reflexivity]. intros _.
      assert (K : ~ forall n, In n names ->
                              existsb (String.eqb n) (columns d) = true).
      { intros K. apply forallb_forall in K. congruence. }
      clear E. induction names as [|n names IH].
      * exfalso. apply K. intros n [].
      * destruct (existsb (String.eqb n) (columns d)) eqn:En.
        -- destruct IH as [k [Hk Hc]].
           ++ intros K'. apply K. intros k [<-|Hk]; auto.
           ++ exists k. split; [now right | exact Hc].
        -- exists n. split; [now left|]. intros Hin.
           assert (existsb (String.eqb n) (columns d) = true); [|congruence].
           apply existsb_exists. exists n.
           split; [exact Hin | apply String.eqb_refl].
  - intros d' E. split; [now apply columns_drop|].
    split; [intros c; now apply getitem_drop|].
    intros Hne. destruct names as [|n names]; [congruence|].
    unfold drop. rewrite (columns_drop d (n :: names) d' E).
    cbn [forallb].
    assert (K : existsb (String.eqb n)
                  (filter (fun k => negb (existsb (String.eqb k) (n :: names)))
                          (columns d)) = false).
    { destruct (existsb _ _) eqn:Ex; [|reflexivity].
      apply existsb_exists in Ex. destruct Ex as [k [Hk Ek]].
      apply String.eqb_eq in Ek. subst k. apply filter_In in Hk.
      destruct Hk as [_ Hk]. cbn [existsb] in Hk.
      now rewrite String.eqb_refl in Hk. }
    now rewrite K.
Qed.

(** ** Appending rows of the frame itself *)

Lemma take_spec {A : Type} (idx : list nat) (l : list A) (d : A) :
  (forall r, take idx l = Some r ->
             r = map (fun i => nth i l d) idx /\
             Forall (fun i => (i < List.length l)%nat) idx) /\
  (take idx l = None <-> exists i, In i idx /\ (List.length l <= i)%nat).
Proof.
  induction idx as [|i idx [IH1 IH2]]; simpl.
  - split.
    + intros r H. injection H as <-. split; [reflexivity | constructor].
    + split; [discriminate | intros [i [[] _]]].
  - destruct (nth_error l i) as [x|] eqn:Ex; simpl.
    + assert (Hi : (i < List.length l)%nat)
        by (apply nth_error_Some; congruence).
      destruct (take idx l) as [r'|]; simpl.
      * split.
        -- intros r H. injection H as <-. destruct (IH1 r' eq_refl) as [-> F].
           split; [|now constructor]. f_equal.
           symmetry. now apply nth_error_nth.
        -- split; [discriminate|]. intros [j [[<-|Hj] Hl]]; [lia|].
           assert (K : @None (list A) = None) by reflexivity.
           assert (E : exists i0, In i0 idx /\ (List.length l <= i0)%nat)
             by (exists j; auto).
           apply IH2 in E. discriminate.
      * split; [discriminate|]. split; [|reflexivity]. intros _.
        destruct (proj1 IH2 eq_refl) as [j [Hj Hl]].
        exists j. split; [now right | exact Hl].
    + split; [discriminate|]. split; [|reflexivity]. intros _.
      exists i. split; [now left|]. now apply nth_error_None.
Qed.

Lemma take_col_cells idx c t :
  take_col idx c = Some t ->
  cells t = map (fun i => nth i (cells c) (CNum None)) idx /\
  Forall (fun i => (i < col_len c)%nat) idx /\
  col_len t = List.length idx /\
  append_col c t <> None.
Proof.
  destruct c as [v|v|v]; simpl.
  - destruct (take idx v) as [r|] eqn:E; [|discriminate]. simpl.
    intros H. injection H as <-.
    destruct (proj1 (take_spec idx v None) r E) as [-> F]. simpl.
    split; [|split; [exact F | split; [now rewrite length_map | discriminate]]].
    rewrite map_map. apply map_ext_Forall.
    eapply Forall_impl; [|exact F]. intros i Hi. simpl in Hi.
    symmetry. apply (map_nth CNum).
  - destruct (take idx v) as [r|] eqn:E; [|discriminate]. simpl.
    intros H. injection H as <-.
    destruct (proj1 (take_spec idx v None) r E) as [-> F]. simpl.
    split; [|split; [exact F | split; [now rewrite length_map | discriminate]]].
    rewrite map_map. apply map_ext_Forall.
    eapply Forall_impl; [|exact F]. intros i Hi. simpl in Hi.
    rewrite (nth_indep _ (CNum None) (CObj None)) by now rewrite length_map.
    symmetry. apply (map_nth CObj).
  - destruct (take idx v) as [r|] eqn:E; [|discriminate]. simpl.
    intros H. injection H as <-.
    destruct (proj1 (take_spec idx v None) r E) as [-> F]. simpl.
    split; [|split; [exact F | split; [now rewrite length_map | discriminate]]].
    rewrite map_map. apply map_ext_Forall.
    eapply Forall_impl; [|exact F]. intros i Hi. simpl in Hi.
    symmetry. change (CNum None) with (xcell None). apply (map_nth xcell).
Qed.

Lemma take_col_none idx c :
  take_col idx c = None <-> exists i, In i idx /\ (col_len c <= i)%nat.
Proof.
  destruct c as [v|v|v]; simpl;
    rewrite <- (proj2 (take_spec idx v None));
    destruct (take idx v); simpl; split; congruence.
Qed.

Lemma iloc_none d idx n :
  d <> [] -> Forall (fun p => col_len (snd p) = n) d ->
  (iloc d idx = None <-> exists i, In i idx /\ (n <= i)%nat).
Proof.
  intros Hd H. induction H as [|[k c] d Hc Hr IH]; [congruence|].
  simpl in *. destruct (take_col idx c) as [t|] eqn:E; simpl.
  - assert (Hno : ~ exists i, In i idx /\ (n <= i)%nat).
    { intros K. rewrite <- Hc in K. apply take_col_none in K. congruence. }
    destruct d as [|p d'].
    + simpl. split; [discriminate | intros K; contradiction].
    + destruct (iloc (p :: d') idx) as [r|] eqn:Er; simpl.
      * split; [discriminate | intros K; contradiction].
      * split; [|reflexivity]. intros _. apply IH; [discriminate | reflexivity].
  - split; [|reflexivity]. intros _. rewrite <- Hc. now apply take_col_none.
Qed.

Lemma iloc_rows d idx t :
  iloc d idx = Some t ->
  columns t = columns d /\
  Forall (fun p => col_len (snd p) = List.length idx) t /\
  (forall j, (j < List.length idx)%nat ->
             row_at t j = row_at d (nth j idx 0%nat)) /\
  exists r, pd_concat d t = Some r.
Proof.
  revert t. induction d as [|[k c] d IH]; intros t; simpl.
  - intros H. injection H as <-. repeat split; try constructor.
    now exists [].
  - destruct (take_col idx c) as [c'|] eqn:Ec; [|discriminate]. simpl.
    destruct (iloc d idx) as [t'|]; [|discriminate]. simpl.
    intros H. injection H as <-.
    destruct (IH t' eq_refl) as [H1 [H2 [H3 [r Hr]]]].
    destruct (take_col_cells idx c c' Ec) as [C1 [C2 [C3 C4]]].
    split; [simpl; now rewrite H1|]. split; [now constructor|]. split.
    + intros j Hj. unfold row_at in *. simpl. f_equal; [|now apply H3].
      rewrite C1.
      rewrite (nth_indep _ (CNum None) (nth 0%nat (cells c) (CNum None)))
        by now rewrite length_map.
      apply (map_nth (fun i => nth i (cells c) (CNum None))).
    + simpl. rewrite String.eqb_refl.
      destruct (append_col c c') as [ce|]; [|congruence]. simpl.
      rewrite Hr. simpl. now eexists.
Qed.

Lemma pd_concat_rows a b r n :
  pd_concat a b = Some r ->
  Forall (fun p => col_len (snd p) = n) a ->
  columns r = columns a /\
  (forall k, Forall (fun p => col_len (snd p) = k) b ->
             Forall (fun p => col_len (snd p) = (n + k)%nat) r) /\
  forall i, row_at r i
            = if Nat.ltb i n then row_at a i else row_at b (i - n).
Proof.
  revert b r. induction a as [|[ka c] a IH]; intros [|[kb e] b] r; simpl;
    try discriminate.
  - intros H _. injection H as <-. repeat split; try constructor.
    intros i. now destruct (Nat.ltb i n).
  - destruct (String.eqb ka kb); [|discriminate].
    destruct (append_col c e) as [ce|] eqn:Ece; [|discriminate]. simpl.
    destruct (pd_concat a b) as [r'|] eqn:Er; [|discriminate]. simpl.
    intros H F. injection H as <-.
    pose proof (Forall_inv F) as Fc. pose proof (Forall_inv_tail F) as Fa.
    destruct (IH b r' Er Fa) as [H1 [H2 H3]]. simpl in Fc.
    assert (Hce : cells ce = cells c ++ cells e).
    { destruct c, e; simpl in Ece; try discriminate;
        injection Ece as <-; simpl; now rewrite map_app. }
    split; [simpl; now rewrite H1|]. split.
    + intros k Fb.
      pose proof (Forall_inv Fb) as Fe. pose proof (Forall_inv_tail Fb) as Fb'.
      simpl in Fe. constructor; [|now apply H2]. simpl.
      rewrite col_len_cells in Fc, Fe. rewrite col_len_cells.
      now rewrite Hce, length_app, Fc, Fe.
    + intros i. specialize (H3 i). unfold row_at in *. simpl.
      rewrite Hce. rewrite col_len_cells in Fc. rewrite <- Fc in *.
      destruct (Nat.ltb_spec i (List.length (cells c))) as [L|L].
      * rewrite app_nth1 by exact L. now rewrite H3.
      * rewrite app_nth2 by exact L. now rewrite H3.
Qed.

Lemma map_nth_seq {A B : Type} (f : A -> B) (l : list A) (d : A) :
  map (fun j => f (nth j l d)) (seq 0 (List.length l)) = map f l.
Proof.
  induction l as [|x t IH]; simpl; [reflexivity|].
  f_equal. rewrite <- seq_shift, map_map. exact IH.
Qed.

Lemma seq_from n k : seq n k = map (fun j => (n + j)%nat) (seq 0 k).
Proof.
  induction n as [|n IH]; simpl.
  - symmetry. apply map_id.
  - rewrite <- seq_shift, IH, map_map. reflexivity.
Qed.

(** X10. [df.iloc[idx]] raises exactly when a position is not a row of the
    frame; otherwise [pd.concat([df, df.iloc[idx]], ignore_index=True)]
    has the same columns, [len(idx)] more rows, and its rows are the rows
    of [df] followed by copies of the rows at the positions taken. *)
Theorem concat_with_own_rows :
  forall d idx,
    d <> [] -> rectangular d ->
    (iloc d idx = None <-> exists i, In i idx /\ (nrows d <= i)%nat) /\
    (forall t,
        iloc d idx = Some t ->
        exists r,
          pd_concat d t = Some r /\
          columns r = columns d /\
          nrows r = (nrows d + List.length idx)%nat /\
          rectangular r /\
          rows r = rows d ++ map (row_at d) idx).
Proof.
  intros d idx Hd H. split; [now apply iloc_none|].
  intros t Ht.
  destruct (iloc_rows d idx t Ht) as [T1 [T2 [T3 [r Hr]]]].
  destruct (pd_concat_rows d t r (nrows d) Hr H) as [R1 [R2 R3]].
  specialize (R2 _ T2).
  assert (Hrne : r <> []).
  { intros E. subst r. destruct d; [congruence | discriminate]. }
  assert (Hn : nrows r = (nrows d + List.length idx)%nat)
    by now apply nrows_of_lengths.
  exists r. split; [exact Hr|]. split; [exact R1|]. split; [exact Hn|].
  split; [unfold rectangular; now rewrite Hn|].
  unfold rows at 1. rewrite Hn, seq_app, map_app. f_equal.
  - apply map_ext_in. intros i Hi. apply in_seq in Hi. rewrite R3.
    destruct (Nat.ltb_spec i (nrows d)); [reflexivity | lia].
  - simpl. rewrite <- (map_nth_seq (row_at d) idx 0%nat).
    rewrite (seq_from (nrows d) (List.length idx)), map_map.
    apply map_ext_in. intros j Hj. apply in_seq in Hj. rewrite R3.
    destruct (Nat.ltb_spec (nrows d + j) (nrows d)); [lia|].
    replace (nrows d + j - nrows d)%nat with j by lia.
    apply T3. lia.
Qed.

Lemma concat_with_own_rows_witness :
  exists t r,
    iloc [("id", ints [1; 2; 3]%Z); ("city", strs ["a"; "b"; "c"])]
         [1; 2]%nat = Some t /\
    pd_concat [("id", ints [1; 2; 3]%Z); ("city", strs ["a"; "b"; "c"])] t
    = Some r /\
    nrows r = 5%nat.
Proof.
  eexists. 
  destruct (proj2 (concat_with_own_rows
                     [("id", ints [1; 2; 3]%Z); ("city", strs ["a"; "b"; "c"])]
                     [1; 2]%nat
                     ltac:(discriminate) ltac:(repeat constructor))
                  _ eq_refl) as [r [H1 [_ [H2 _]]]].
  exists r. split; [reflexivity|]. split; [exact H1 | exact H2].
Defined.

(** ** Appended copies are what [drop_duplicates] removes *)

Section SeenAppend.
Context {A : Type}.
Variable eqb : A -> A -> bool.
Hypothesis eqb_refl : forall x, eqb x x = true.
Hypothesis eqb_sym : forall x y, eqb x y = true -> eqb y x = true.
Hypothesis eqb_trans :
  forall x y z, eqb x y = true -> eqb y z = true -> eqb x z = true.

Lemma filter_true (l : list A) : filter (fun _ => true) l = l.
Proof. induction l as [|a t IH]; simpl; congruence. Qed.

Lemma filter_false (l : list A) : filter (fun _ => false) l = [].
Proof. induction l as [|a t IH]; simpl; congruence. Qed.

Lemma keep_first_app l l' :
  keep_first eqb (l ++ l')
  = keep_first eqb l
    ++ filter (fun y => negb (existsb (eqb y) l)) (keep_first eqb l').
Proof.
  induction l as [|x t IH]; cbn [app].
  - change (keep_first eqb []) with (@nil A). cbn [app existsb negb].
    now rewrite filter_true.
  - rewrite !(keep_first_cons eqb eqb_sym eqb_trans), IH. cbn [app].
    f_equal. rewrite filter_app. f_equal. rewrite filter_twice.
    apply filter_ext. intros y. cbn [existsb].
    destruct (eqb y x), (existsb (eqb y) t); reflexivity.
Qed.

(** Entries appended after the list that already holds their equals leave
    the first occurrences as they were. *)
Lemma keep_first_app_copies l l' :
  (forall x, In x l' -> exists y, In y l /\ eqb x y = true) ->
  keep_first eqb (l ++ l') = keep_first eqb l.
Proof.
  intros H. rewrite keep_first_app.
  rewrite (filter_ext_in (fun y => negb (existsb (eqb y) l))
                         (fun _ => false)).
  - now rewrite filter_false, app_nil_r.
  - intros y Hy. apply (keep_first_incl eqb eqb_sym eqb_trans) in Hy.
    destruct (H y Hy) as [z [Hz E]].
    assert (K : existsb (eqb y) l = true)
      by (apply existsb_exists; now exists z).
    now rewrite K.
Qed.
End SeenAppend.

(** X11. Rows copied from the frame and appended to it are exactly undone
    by [drop_duplicates]: the frame with the copies and the frame without
    them have the same rows after duplicate removal, and so the same number
    of rows. *)
Theorem appended_copies_are_dropped :
  forall d idx t r,
    d <> [] -> rectangular d ->
    iloc d idx = Some t ->
    pd_concat d t = Some r ->
    rows (drop_duplicates r) = rows (drop_duplicates d) /\
    nrows (drop_duplicates r) = nrows (drop_duplicates d).
Proof.
  intros d idx t r Hd H Ht Hr.
  destruct (proj2 (concat_with_own_rows d idx Hd H) t Ht)
    as [r' [Hr' [_ [_ [Rr E]]]]].
  rewrite Hr in Hr'. injection Hr' as <-.
  assert (K : keep_first row_eqb (rows r) = keep_first row_eqb (rows d)).
  { rewrite E.
    apply (keep_first_app_copies row_eqb row_eqb_sym row_eqb_trans).
    intros x Hx. apply in_map_iff in Hx. destruct Hx as [i [<- Hi]].
    exists (row_at d i). split; [|apply row_eqb_refl].
    unfold rows. apply in_map. apply in_seq.
    assert (N : iloc d idx <> None) by congruence.
    rewrite (proj1 (concat_with_own_rows d idx Hd H)) in N.
    split; [lia|]. simpl.
    destruct (Nat.lt_ge_cases i (nrows d)) as [L|L]; [exact L|].
    exfalso. apply N. now exists i. }
  split.
  - now rewrite !rows_drop_duplicates.
  - now rewrite !nrows_drop_duplicates, K.
Qed.

Lemma appended_copies_are_dropped_witness :
  exists t r,
    iloc [("id", ints [1; 1; 3]%Z)] [2; 0]%nat = Some t /\
    pd_concat [("id", ints [1; 1; 3]%Z)] t = Some r /\
    nrows (drop_duplicates r)
    = nrows (drop_duplicates [("id", ints [1; 1; 3]%Z)]).
Proof.
  eexists. eexists. split; [reflexivity|]. split; [reflexivity|].
  apply (appended_copies_are_dropped
           [("id", ints [1; 1; 3]%Z)] [2; 0]%nat _ _
           ltac:(discriminate) ltac:(repeat constructor) eq_refl eq_refl).
Defined.

(** ** Label codes follow the order of the labels *)

Lemma string_ltb_irrefl s : String.ltb s s = false.
Proof. unfold String.ltb. now rewrite string_compare_refl. Qed.

Lemma string_ltb_asym s t : String.ltb s t = true -> String.ltb t s = false.
Proof.
  unfold String.ltb. rewrite (String.compare_antisym t s).
  destruct (String.compare s t); simpl; congruence.
Qed.

Lemma sorted_nth_error_lt (l : list string) a b s t :
  StronglySorted (fun x y => String.ltb x y = true) l ->
  nth_error l a = Some s -> nth_error l b = Some t ->
  (a < b)%nat -> String.ltb s t = true.
Proof.
  intros Hs. revert a b. induction Hs as [|x l Hl IH Hx]; intros a b.
  - destruct a; discriminate.
  - destruct a as [|a], b as [|b]; simpl; intros Ha Hb Hab; try lia.
    + injection Ha as <-. rewrite Forall_forall in Hx.
      apply Hx. eapply nth_error_In. exact Hb.
    + apply (IH a b); auto. lia.
Qed.

Lemma label_encode_positions v w :
  label_encode (ObjCol v) = Some (NumCol w) ->
  StronglySorted (fun a b => String.ltb a b = true) (classes v) /\
  forall i o, nth_error v i = Some o ->
    exists s k,
      o = Some s /\
      nth_error w i = Some (Some (inject_Z (Z.of_nat k))) /\
      nth_error (classes v) k = Some s.
Proof.
  intros H. simpl in H.
  destruct (mapM (code (classes v)) v) as [w'|] eqn:E; [|discriminate].
  injection H as <-. destruct (classes_spec v) as [_ C2].
  destruct (code_position _ _ _ E) as [_ Hn]. split; [exact C2|].
  intros i o Ho. destruct (Hn i o Ho) as [s [k [H1 [H2 [H3 _]]]]].
  exists s, k. auto.
Qed.

(** X12. The codes [LabelEncoder] gives follow the lexicographic order of
    the labels: of two entries the one with the smaller label has the
    smaller code, equal labels and only they have equal codes, and every
    code is a whole number from 0 up to one less than the number of
    distinct labels. *)
Theorem label_codes_follow_order :
  forall v w,
    label_encode (ObjCol v) = Some (NumCol w) ->
    forall i j s t,
      nth_error v i = Some (Some s) ->
      nth_error v j = Some (Some t) ->
      exists a b,
        nth_error w i = Some (Some (inject_Z (Z.of_nat a))) /\
        nth_error w j = Some (Some (inject_Z (Z.of_nat b))) /\
        (a < nunique (ObjCol v))%nat /\
        ((a < b)%nat <-> String.ltb s t = true) /\
        (a = b <-> s = t).
Proof.
  intros v w H i j s t Hi Hj.
  destruct (label_encode_positions v w H) as [Hs Hn].
  destruct (Hn i _ Hi) as [s' [a [Es [Wa Ca]]]]. injection Es as <-.
  destruct (Hn j _ Hj) as [t' [b [Et [Wb Cb]]]]. injection Et as <-.
  exists a, b. split; [exact Wa|]. split; [exact Wb|]. split.
  { rewrite <- classes_length. apply nth_error_Some. congruence. }
  destruct (Nat.lt_trichotomy a b) as [L|[E|G]].
  - pose proof (sorted_nth_error_lt _ a b s t Hs Ca Cb L) as Hlt.
    split; [tauto|]. split; [lia|]. intros ->.
    rewrite string_ltb_irrefl in Hlt. discriminate.
  - subst b. rewrite Ca in Cb. injection Cb as <-.
    split; [|tauto]. split; [lia|]. now rewrite string_ltb_irrefl.
  - pose proof (sorted_nth_error_lt _ b a t s Hs Cb Ca G) as Hlt.
    split; [split; [lia|]|split; [lia|]].
    + intros K. apply string_ltb_asym in K. congruence.
    + intros ->. rewrite string_ltb_irrefl in Hlt. discriminate.
Qed.

Lemma label_codes_follow_order_witness :
  exists a b,
    nth_error [Some 1%Q; Some 0%Q] 0 = Some (Some (inject_Z (Z.of_nat a))) /\
    nth_error [Some 1%Q; Some 0%Q] 1 = Some (Some (inject_Z (Z.of_nat b))) /\
    ((a < b)%nat <-> String.ltb "b" "a" = true).
Proof.
  destruct (label_codes_follow_order
              [Some "b"; Some "a"] [Some 1%Q; Some 0%Q] eq_refl
              0%nat 1%nat "b" "a" eq_refl eq_refl)
    as [a [b [H1 [H2 [_ [H3 _]]]]]].
  exists a, b. auto.
Defined.

(** ** One-hot rows *)

(** X13. In the frame [get_dummies(..., drop_first=True)] returns, the
    entry of row [i] in the indicator column of a category is 1 when the
    value of row [i] is that category and 0 otherwise; a row is all zeros
    exactly when its value is missing or is the first category in
    lexicographic order, the one left out. *)
Theorem one_hot_rows :
  forall v prefix e i o,
    get_dummies (ObjCol v) prefix true = Some e ->
    nth_error v i = Some o ->
    (forall name col,
        In (name, col) e ->
        exists k,
          In k (tl (classes v)) /\
          name = (prefix ++ "_" ++ k)%string /\
          nth_error (values_of (Some col)) i
          = Some (Some (if opt_eqb String.eqb o (Some k)
                        then 1%Q else 0%Q))) /\
    (Forall (fun p => nth_error (values_of (Some (snd p))) i
                      = Some (Some 0%Q)) e
     <-> o = None \/ hd_error (classes v) = o).
Proof.
  intros v prefix e i o He Ho. simpl in He. injection He as <-.
  assert (Hcol : forall k,
             nth_error (values_of (Some (indicator k v))) i
             = Some (Some (if opt_eqb String.eqb o (Some k)
                           then 1%Q else 0%Q))).
  { intros k. simpl. now rewrite nth_error_map, Ho. }
  split.
  - intros name col Hin. apply in_map_iff in Hin.
    destruct Hin as [k [E Hk]]. injection E as <- <-.
    exists k. split; [exact Hk|]. split; [reflexivity | apply Hcol].
  - destruct (classes_spec v) as [Hmem Hsorted].
    rewrite Forall_map. cbn [snd]. split.
    + intros Hall. destruct o as [s|]; [right | now left].
      assert (Hs : In s (classes v))
        by (apply Hmem; eapply nth_error_In; exact Ho).
      destruct (classes v) as [|c0 rest]; [destruct Hs|]. simpl.
      destruct Hs as [->|Hs]; [reflexivity|].
      rewrite Forall_forall in Hall. specialize (Hall s Hs).
      rewrite Hcol in Hall. simpl in Hall.
      rewrite String.eqb_refl in Hall. discriminate.
    + intros Hcase. apply Forall_forall. intros k Hk. rewrite Hcol.
      destruct Hcase as [->|Hhd]; [reflexivity|].
      destruct (classes v) as [|c0 rest]; [destruct Hk|].
      simpl in Hhd, Hk. subst o. simpl.
      inversion Hsorted as [|? ? _ Hlt]; subst.
      rewrite Forall_forall in Hlt. specialize (Hlt k Hk).
      destruct (String.eqb_spec c0 k) as [->|_]; [|reflexivity].
      rewrite string_ltb_irrefl in Hlt. discriminate.
Qed.

Lemma one_hot_rows_witness :
  exists e,
    get_dummies (ObjCol [Some "b"; None; Some "a"]) "city" true = Some e /\
    Forall (fun p => nth_error (values_of (Some (snd p))) 2
                     = Some (Some 0%Q)) e.
Proof.
  eexists. split; [reflexivity|].
  apply (proj2 (one_hot_rows [Some "b"; None; Some "a"] "city" _ 2%nat
                  (Some "a") eq_refl eq_refl)).
  right. reflexivity.
Defined.

(** ** The outliers frame is a snapshot *)












(** ** Filling with the mode keeps the mode *)

Lemma socc_filled v m x :
  socc x (map (fun o => match o with Some y => y | None => m end) v)
  = (socc x (dropna v)
     + if String.eqb x m then isnull_sum_vals v else 0)%nat.
Proof.
  unfold socc, occurrences, isnull_sum_vals.
  induction v as [|[y|] t IH]; simpl.
  - now destruct (String.eqb x m).
  - destruct (String.eqb x y); simpl; rewrite IH; reflexivity.
  - destruct (String.eqb x m); simpl; rewrite IH; lia.
Qed.

Lemma dropna_fillna_strings (v : list (option string)) m :
  dropna (fillna_vals v (Some m))
  = map (fun o => match o with Some y => y | None => m end) v.
Proof.
  unfold fillna_vals. induction v as [|[x|] t IH]; simpl;
    [reflexivity | now rewrite IH | now rewrite IH].
Qed.

Lemma max_count_le {A : Type} (eqb : A -> A -> bool) (vals l : list A) B :
  (forall y, In y l -> (occurrences eqb y vals <= B)%nat) ->
  (fold_right Nat.max 0 (map (fun y => occurrences eqb y vals) l) <= B)%nat.
Proof.
  induction l as [|a t IH]; intros H; simpl; [lia|].
  pose proof (H a (or_introl eq_refl)).
  assert (IH' := IH (fun y Hy => H y (or_intror Hy))). lia.
Qed.

Lemma sort_hd_the_least (l : list string) m :
  In m l -> (forall y, In y l -> String.leb m y = true) ->
  hd_error (sort String.leb l) = Some m.
Proof.
  intros Hm Hle.
  destruct (sort String.leb l) as [|m' r] eqn:E.
  - apply (sort_In String.leb) in Hm. rewrite E in Hm. destruct Hm.
  - simpl. f_equal.
    assert (Hm' : In m' l)
      by (apply (proj1 (sort_In String.leb l m')); rewrite E; now left).
    apply String.leb_antisym; [|now apply Hle].
    apply (sort_hd_least String.leb String.leb_total string_leb_trans l m');
      [now rewrite E | exact Hm].
Qed.

(** X16. Filling the missing entries of a column of strings with its mode
    leaves no entry missing and keeps that value as [mode()[0]]; when at
    least one entry was missing, it becomes the only mode. *)
Theorem mode_fill_keeps_mode :
  forall v m rest,
    smode v = m :: rest ->
    isnull_sum_vals (fillna_vals v (Some m)) = 0%nat /\
    hd_error (smode (fillna_vals v (Some m))) = Some m /\
    ((0 < isnull_sum_vals v)%nat ->
     forall x, In x (smode (fillna_vals v (Some m))) -> x = m).
Proof.
  intros v m rest H.
  destruct (smode_head v m rest H) as [Hin [Hmax Htie]].
  split; [apply fillna_vals_complete|].
  set (k := isnull_sum_vals v).
  set (vals' := map (fun o => match o with Some y => y | None => m end) v).
  assert (Hv' : forall y, In y vals' -> y = m \/ In (Some y) v).
  { intros y Hy. apply in_map_iff in Hy. destruct Hy as [[z|] [<- Hz]]; auto. }
  assert (Hm' : In m vals').
  { apply in_map_iff. exists (Some m). auto. }
  assert (Hocc : forall y, In y vals' ->
                           (socc y vals' <= socc m vals')%nat).
  { intros y Hy. unfold vals'. rewrite !socc_filled, String.eqb_refl.
    fold k. destruct (String.eqb_spec y m) as [->|_]; [lia|].
    destruct (Hv' y Hy) as [->|Hy']; [lia|]. specialize (Hmax y Hy'). lia. }
  assert (Hmc : max_count String.eqb vals' = socc m vals').
  { apply Nat.le_antisymm.
    - apply max_count_le. exact Hocc.
    - now apply max_count_upper. }
  assert (Hcand : forall y,
             In y (filter (fun x => Nat.eqb (occurrences String.eqb x vals')
                                            (max_count String.eqb vals'))
                          (keep_first String.eqb vals')) ->
             y = m \/ (k = 0%nat /\ String.leb m y = true)).
  { intros y Hy. apply filter_In in Hy. destruct Hy as [Hy1 Hy2].
    apply (proj1 (string_keep_first_In _ _)) in Hy1.
    apply Nat.eqb_eq in Hy2. rewrite Hmc in Hy2.
    fold (socc y vals') in Hy2. unfold vals' in Hy2.
    rewrite !socc_filled, String.eqb_refl in Hy2. fold k in Hy2.
    destruct (String.eqb_spec y m) as [->|Hne]; [now left|]. right.
    destruct (Hv' y Hy1) as [->|Hy']; [congruence|].
    pose proof (Hmax y Hy'). split; [lia|]. apply Htie; [exact Hy' | lia]. }
  unfold smode, mode_vals. rewrite dropna_fillna_strings. fold vals'.
  split.
  - apply sort_hd_the_least.
    + apply filter_In. split; [now apply string_keep_first_In|].
      apply Nat.eqb_eq. now rewrite Hmc.
    + intros y Hy. destruct (Hcand y Hy) as [->|[_ Hle]]; [|exact Hle].
      destruct (String.leb_total m m); assumption.
  - intros Hk x Hx. apply (proj1 (sort_In String.leb _ _)) in Hx.
    destruct (Hcand x Hx) as [->|[Hz _]]; [reflexivity|]. unfold k in Hz. lia.
Qed.

Lemma mode_fill_keeps_mode_witness :
  hd_error (smode (fillna_vals [Some "b"; None; Some "a"; Some "b"]
                               (Some "b"))) = Some "b".
Proof.
  apply (mode_fill_keeps_mode [Some "b"; None; Some "a"; Some "b"] "b" []).
  reflexivity.
Defined.

(** ** The two reports of missing values *)

Local Open Scope Q_scope.

Lemma Qltb_lt_iff x y : x < y -> Qltb x y = true.
Proof.
  intros H. unfold Qltb. rewrite negb_true_iff.
  destruct (Qle_bool y x) eqn:E; [|reflexivity].
  apply Qle_bool_iff in E. lra.
Qed.

Lemma isnull_sum_le c : (isnull_sum c <= col_len c)%nat.
Proof.
  destruct c as [v|v|v]; simpl; pose proof (length_dropna_isnull v); lia.
Qed.

Lemma missing_pct_value d c :
  (0 < nrows d)%nat -> col_len c = nrows d ->
  exists q,
    missing_pct d c = Some q /\ 0 <= q /\ q <= 100 /\
    (0 < q <-> (0 < isnull_sum c)%nat).
Proof.
  intros Hn Hc. unfold missing_pct.
  destruct (Nat.eqb_spec (nrows d) 0) as [E|_]; [lia|].
  eexists. split; [reflexivity|].
  pose proof (isnull_sum_le c) as Hle. rewrite Hc in Hle.
  set (x := inject_Z (Z.of_nat (isnull_sum c))).
  set (n := inject_Z (Z.of_nat (nrows d))).
  assert (Hx : 0 <= x)
    by (unfold x; change 0 with (inject_Z 0); rewrite <- Zle_Qle; lia).
  assert (Hnp : 0 < n)
    by (unfold n; change 0 with (inject_Z 0); rewrite <- Zlt_Qlt; lia).
  assert (Hxn : x <= n) by (unfold x, n; rewrite <- Zle_Qle; lia).
  assert (Hq : x / n * 100 == 100 * x / n) by (field; lra).
  assert (H0 : 0 <= x / n).
  { apply Qle_shift_div_l; [exact Hnp | lra]. }
  assert (H1 : x / n <= 1).
  { apply Qle_shift_div_r; [exact Hnp | lra]. }
  split; [lra|]. split; [lra|]. split.
  - intros Hpos. destruct (Nat.eq_dec (isnull_sum c) 0) as [Z|Z]; [|lia].
    exfalso. unfold x in Hpos. rewrite Z in Hpos. simpl in Hpos.
    unfold Qdiv in Hpos. rewrite Qmult_0_l in Hpos.
    rewrite Qmult_0_l in Hpos. lra.
  - intros Hpos.
    assert (Hx1 : 0 < x)
      by (unfold x; change 0 with (inject_Z 0); rewrite <- Zlt_Qlt; lia).
    assert (0 < x / n) by (apply Qlt_shift_div_l; [exact Hnp | lra]).
    lra.
Qed.

(** X17. On a rectangular frame with at least one row the share of missing
    entries of a field is a percentage between 0 and 100, and the report by
    percentage (lines 88-91) names the same fields as the report by count
    (lines 161-165); on a frame without rows the share is NaN and the report
    by percentage names no field. *)
Theorem missing_reports_agree :
  forall d,
    rectangular d ->
    ((0 < nrows d)%nat ->
     reported_by_pct d = reported_by_count d /\
     Forall (fun p => exists q, missing_pct d (snd p) = Some q /\
                                0 <= q /\ q <= 100) d) /\
    (nrows d = 0%nat -> reported_by_pct d = []).
Proof.
  intros d Hr. split.
  - intros Hn. split.
    + unfold reported_by_pct, reported_by_count. f_equal.
      apply filter_ext_in. intros [k c] Hin. cbn [snd].
      unfold rectangular in Hr. rewrite Forall_forall in Hr.
      specialize (Hr _ Hin). cbn [snd] in Hr.
      destruct (missing_pct_value d c Hn Hr) as [q [-> [_ [_ Hq]]]].
      simpl. destruct (Nat.ltb_spec 0 (isnull_sum c)) as [L|L].
      * apply Qltb_lt_iff. now apply Hq.
      * destruct (Qltb 0 q) eqn:E; [|reflexivity].
        apply Qltb_lt' in E. apply Hq in E. lia.
    + unfold rectangular in Hr. eapply Forall_impl; [|exact Hr].
      intros [k c] Hc. cbn [snd] in *.
      destruct (missing_pct_value d c Hn Hc) as [q [E [H0 [H1 _]]]].
      exists q. auto.
  - intros Hz. unfold reported_by_pct, missing_pct. rewrite Hz. simpl.
    induction d as [|p d' IH]; [reflexivity|]. simpl.
    clear. induction d' as [|p' d'' IH']; [reflexivity | exact IH'].
Qed.

Lemma missing_reports_agree_witness :
  reported_by_pct [("age", NumCol [Some 1; None]); ("city", strs ["a"; "b"])]
  = reported_by_count
      [("age", NumCol [Some 1; None]); ("city", strs ["a"; "b"])].
Proof.
  apply (proj1 (missing_reports_agree
                  [("age", NumCol [Some 1; None]); ("city", strs ["a"; "b"])]
                  ltac:(repeat constructor))).
  simpl. lia.
Defined.

Local Close Scope Q_scope.
